(** * Score reel controller and smart-virtual ball device

    A shallow embedding of [mpf/devices/score_reel_controller.py]
    (class [ScoreReelController]) and of the ball-device scenario exercised by
    [mpf/tests/test_BallDevice_SmartVirtual.py].

    Python objects that are shared by reference (score reel groups) live in a
    store, the device collection of the machine, and are referred to by their
    unique name; the controller's fields hold such references.  Handlers run
    in a state-and-exception monad: an exception leaves the state as it was
    at the point of the [raise]. *)

From stdpp Require Import base numbers option strings pretty sorting list.

Open Scope Z_scope.

(** ** Exceptions and the handler monad *)

Inductive exn :=
| IndexError       (* list index out of range *)
| AttributeError   (* attribute access on None *)
| TypeError.       (* missing required keyword argument *)

Inductive Res (A : Type) :=
| Ok (a : A)
| Raise (e : exn).
Arguments Ok {A} a.
Arguments Raise {A} e.

(** ** Data model *)

(** A [ScoreReelGroup] as the controller sees it: its [name], its [tags], the
    value it currently assumes to show, and whether its lights are on. *)
Record ScoreReelGroup := {
  name : string;
  tags : list string;
  assumed_value_int : Z;
  lit : bool
}.

(** [machine.game.player]: the controller reads [index], [number], [score]. *)
Record Player := {
  index : nat;
  number : Z;
  score : Z
}.

(** The four bound methods the controller registers with the event manager. *)
Inductive Handler :=
| H_rotate_player
| H_score_change
| H_game_starting
| H_reset_next_group.

Global Instance Handler_eq_dec : EqDecision Handler.
Proof. solve_decision. Defined.

(** Calls the controller makes on objects it does not own: the queue token of
    a queue event and the score reel groups. *)
Inductive Command :=
| QueueWait (q : nat)
| QueueClear (q : nat)
| SetValue (g : string) (v : Z)
| AddValue (g : string) (value target : Z)
| Light (g : string)
| Unlight (g : string).

Global Instance Command_eq_dec : EqDecision Command.
Proof. solve_decision. Defined.

(** The controller's own fields, followed by the parts of [self.machine] it
    touches.  [calls] records, oldest first, every call made on a queue token
    or on a score reel group. *)
Record World := {
  active_scorereelgroup : option string;
  player_to_scorereel_map : list string;
  reset_queue : list string;
  queue : option nat;
  score_reel_groups : list ScoreReelGroup;
  player_list : list Player;
  player : Player;
  registered_handlers : list (string * Handler);
  calls : list Command
}.

Definition M (A : Type) : Type := World -> Res A * World.

Definition ret {A} (a : A) : M A := fun w => (Ok a, w).

Definition bind {A B} (m : M A) (k : A -> M B) : M B :=
  fun w =>
    match m w with
    | (Ok a, w') => k a w'
    | (Raise e, w') => (Raise e, w')
    end.

Definition raise {A} (e : exn) : M A := fun w => (Raise e, w).
Definition get : M World := fun w => (Ok w, w).
Definition modify (f : World -> World) : M unit := fun w => (Ok tt, f w).

Declare Scope handler_scope.
Delimit Scope handler_scope with handler.
Notation "x <- m ;; k" := (bind m (fun x => k))
  (at level 100, m at next level, right associativity) : handler_scope.
Notation "m ;; k" := (bind m (fun _ => k))
  (at level 100, right associativity) : handler_scope.
Open Scope handler_scope.

(** [for x in xs: body(x)] *)
Fixpoint for_each {A} (xs : list A) (body : A -> M unit) : M unit :=
  match xs with
  | [] => ret tt
  | x :: xs' => body x ;; for_each xs' body
  end.

(** ** Field updates *)

Definition set_active_scorereelgroup (a : option string) (w : World) : World :=
  {| active_scorereelgroup := a;
     player_to_scorereel_map := player_to_scorereel_map w;
     reset_queue := reset_queue w;
     queue := queue w;
     score_reel_groups := score_reel_groups w;
     player_list := player_list w;
     player := player w;
     registered_handlers := registered_handlers w;
     calls := calls w |}.

Definition set_player_to_scorereel_map (m : list string) (w : World) : World :=
  {| active_scorereelgroup := active_scorereelgroup w;
     player_to_scorereel_map := m;
     reset_queue := reset_queue w;
     queue := queue w;
     score_reel_groups := score_reel_groups w;
     player_list := player_list w;
     player := player w;
     registered_handlers := registered_handlers w;
     calls := calls w |}.

Definition set_reset_queue (r : list string) (w : World) : World :=
  {| active_scorereelgroup := active_scorereelgroup w;
     player_to_scorereel_map := player_to_scorereel_map w;
     reset_queue := r;
     queue := queue w;
     score_reel_groups := score_reel_groups w;
     player_list := player_list w;
     player := player w;
     registered_handlers := registered_handlers w;
     calls := calls w |}.

Definition set_queue (q : option nat) (w : World) : World :=
  {| active_scorereelgroup := active_scorereelgroup w;
     player_to_scorereel_map := player_to_scorereel_map w;
     reset_queue := reset_queue w;
     queue := q;
     score_reel_groups := score_reel_groups w;
     player_list := player_list w;
     player := player w;
     registered_handlers := registered_handlers w;
     calls := calls w |}.

Definition set_score_reel_groups (g : list ScoreReelGroup) (w : World) : World :=
  {| active_scorereelgroup := active_scorereelgroup w;
     player_to_scorereel_map := player_to_scorereel_map w;
     reset_queue := reset_queue w;
     queue := queue w;
     score_reel_groups := g;
     player_list := player_list w;
     player := player w;
     registered_handlers := registered_handlers w;
     calls := calls w |}.

Definition set_game (pl : list Player) (p : Player) (w : World) : World :=
  {| active_scorereelgroup := active_scorereelgroup w;
     player_to_scorereel_map := player_to_scorereel_map w;
     reset_queue := reset_queue w;
     queue := queue w;
     score_reel_groups := score_reel_groups w;
     player_list := pl;
     player := p;
     registered_handlers := registered_handlers w;
     calls := calls w |}.

Definition set_registered_handlers (h : list (string * Handler)) (w : World) : World :=
  {| active_scorereelgroup := active_scorereelgroup w;
     player_to_scorereel_map := player_to_scorereel_map w;
     reset_queue := reset_queue w;
     queue := queue w;
     score_reel_groups := score_reel_groups w;
     player_list := player_list w;
     player := player w;
     registered_handlers := h;
     calls := calls w |}.

Definition set_calls (c : list Command) (w : World) : World :=
  {| active_scorereelgroup := active_scorereelgroup w;
     player_to_scorereel_map := player_to_scorereel_map w;
     reset_queue := reset_queue w;
     queue := queue w;
     score_reel_groups := score_reel_groups w;
     player_list := player_list w;
     player := player w;
     registered_handlers := registered_handlers w;
     calls := c |}.

(** ** Collaborators of the controller *)

Definition record_call (c : Command) : M unit :=
  modify (fun w => set_calls (calls w ++ [c]) w).

(** [l[i]] on a Python list with a non-negative index. *)
Definition list_index {A} (l : list A) (i : nat) : M A :=
  match l !! i with
  | Some x => ret x
  | None => raise IndexError
  end.

Definition alter_group (f : ScoreReelGroup -> ScoreReelGroup) (g : string)
    (groups : list ScoreReelGroup) : list ScoreReelGroup :=
  (fun grp => if decide (name grp = g) then f grp else grp) <$> groups.

Definition with_lit (b : bool) (grp : ScoreReelGroup) : ScoreReelGroup :=
  {| name := name grp; tags := tags grp;
     assumed_value_int := assumed_value_int grp; lit := b |}.

Definition find_group (g : string) (groups : list ScoreReelGroup)
    : option ScoreReelGroup :=
  list_find (fun grp => name grp = g) groups ≫= (fun p => Some p.2).

(** Modelled from the spec: [ScoreReelGroup.set_value] (the class is not part
    of the sources at hand).  The command is handed to the device state
    machine; the displayed quantity itself changes only later, at
    confirmation time, so here the call is only recorded. *)
Definition set_value (g : string) (v : Z) : M unit :=
  record_call (SetValue g v).

(** Modelled from the spec: [ScoreReelGroup.add_value(value, target)], an
    incremental command with the expected resulting total; recorded like
    [set_value]. *)
Definition add_value (g : string) (value target : Z) : M unit :=
  record_call (AddValue g value target).

(** Modelled from the spec: [ScoreReelGroup.light] and [unlight], visual side
    effects with no implication for the physical value. *)
Definition light (g : string) : M unit :=
  record_call (Light g) ;;
  modify (fun w => set_score_reel_groups
                     (alter_group (with_lit true) g (score_reel_groups w)) w).

Definition unlight (g : string) : M unit :=
  record_call (Unlight g) ;;
  modify (fun w => set_score_reel_groups
                     (alter_group (with_lit false) g (score_reel_groups w)) w).

(** Reading [group.assumed_value_int] through a reference. *)
Definition get_assumed_value_int (g : string) : M Z :=
  w <- get ;;
  match find_group g (score_reel_groups w) with
  | Some grp => ret (assumed_value_int grp)
  | None => raise AttributeError
  end.

(** Modelled from the spec: [DeviceCollection.items_tagged(tag)], the
    configured groups carrying [tag], in the order of the collection. *)
Definition items_tagged (tag : string) (groups : list ScoreReelGroup)
    : list ScoreReelGroup :=
  filter (fun grp => tag ∈ tags grp) groups.

(** Modelled from the spec: subscribing a handler to a topic of the event
    dispatch. *)
Definition add_handler (event : string) (h : Handler) : M unit :=
  modify (fun w => set_registered_handlers (registered_handlers w ++ [(event, h)]) w).

(** Modelled from the spec: unsubscribing a handler removes it from every
    topic it is subscribed to. *)
Definition remove_handler (h : Handler) : M unit :=
  modify (fun w => set_registered_handlers
                     (filter (fun eh => eh.2 ≠ h) (registered_handlers w)) w).

(** ** The controller *)

(** [__init__]: empty fields and the three static subscriptions. *)
Definition init (groups : list ScoreReelGroup) (pl : list Player) (p : Player)
    : World :=
  {| active_scorereelgroup := None;
     player_to_scorereel_map := [];
     reset_queue := [];
     queue := None;
     score_reel_groups := groups;
     player_list := pl;
     player := p;
     registered_handlers :=
       [("player_turn_started", H_rotate_player);
        ("player_score", H_score_change);
        ("game_starting", H_game_starting)];
     calls := [] |}.

Definition map_new_score_reel_group : M unit :=
  w <- get ;;
  match items_tagged ("player" +:+ pretty (number (player w)))
                     (score_reel_groups w) with
  | reel_group :: _ =>
      modify (fun w => set_player_to_scorereel_map
                         (player_to_scorereel_map w ++ [name reel_group]) w)
  | [] =>
      first <- list_index (player_to_scorereel_map w) 0 ;;
      modify (fun w => set_player_to_scorereel_map
                         (player_to_scorereel_map w ++ [first]) w)
  end.

Definition rotate_player : M unit :=
  w <- get ;;
  (if decide (length (player_to_scorereel_map w) < length (player_list w))%nat
   then map_new_score_reel_group
   else ret tt) ;;
  w <- get ;;
  g <- list_index (player_to_scorereel_map w) (index (player w)) ;;
  modify (set_active_scorereelgroup (Some g)) ;;
  shown <- get_assumed_value_int g ;;
  (if decide (shown ≠ score (player w))
   then set_value g (score (player w))
   else ret tt) ;;
  w <- get ;;
  for_each (score_reel_groups w) (fun group => unlight (name group)) ;;
  light g.

Definition score_change (value change : Z) : M unit :=
  w <- get ;;
  match active_scorereelgroup w with
  | Some g =>
      if decide (change ≠ 0) then add_value g change value else ret tt
  | None => ret tt
  end.

Definition valid_event (g : string) : string :=
  "scorereelgroup_" +:+ g +:+ "_valid".

Definition _reset_next_group (value : Z) : M unit :=
  w <- get ;;
  match reset_queue w with
  | next_group :: rest =>
      modify (set_reset_queue rest) ;;
      add_handler (valid_event next_group) H_reset_next_group ;;
      set_value next_group value
  | [] =>
      match queue w with
      | Some q => record_call (QueueClear q)
      | None => raise AttributeError
      end ;;
      modify (set_queue None) ;;
      remove_handler H_reset_next_group
  end.

(** [reset_queue.sort(key=lambda x: x.name)]: the queue holds references,
    which are the names, so the sort is one of the names themselves, by code
    points.  Two entries with equal keys are the same reference, hence any
    sorting algorithm gives the list that Python's stable sort gives. *)
Definition game_starting (q : nat) : M unit :=
  modify (set_queue (Some q)) ;;
  record_call (QueueWait q) ;;
  modify (set_reset_queue []) ;;
  w <- get ;;
  modify (set_reset_queue (reset_queue w ++ (name <$> score_reel_groups w))) ;;
  modify (fun w => set_reset_queue (merge_sort String.le (reset_queue w)) w) ;;
  _reset_next_group 0.

(** ** Event dispatch *)

(** Keyword arguments an event may carry. *)
Record Payload := {
  kw_value : option Z;
  kw_change : option Z;
  kw_queue : option nat
}.

(** Binding of the keyword arguments to a handler's parameters:
    [rotate_player] takes none, [score_change] takes [value] and [change],
    [game_starting] takes [queue] (and [game], which it drops) and
    [_reset_next_group] takes [value], which defaults to 0; every handler
    drops the remaining keyword arguments. *)
Definition call_handler (h : Handler) (kw : Payload) : M unit :=
  match h with
  | H_rotate_player => rotate_player
  | H_score_change =>
      match kw_value kw, kw_change kw with
      | Some value, Some change => score_change value change
      | _, _ => raise TypeError
      end
  | H_game_starting =>
      match kw_queue kw with
      | Some q => game_starting q
      | None => raise TypeError
      end
  | H_reset_next_group => _reset_next_group (default 0 (kw_value kw))
  end.

Definition handlers_for (event : string) (reg : list (string * Handler))
    : list Handler :=
  (filter (fun eh => eh.1 = event) reg).*2.

(** Modelled from the spec: publishing a topic of the event dispatch calls,
    in subscription order, every handler subscribed to it at that moment. *)
Definition post (event : string) (kw : Payload) : M unit :=
  w <- get ;;
  for_each (handlers_for event (registered_handlers w))
           (fun h => call_handler h kw).

(** Modelled from the spec: a score reel group confirming that it reached its
    target publishes its own [scorereelgroup_<name>_valid] topic; [value] is
    the keyword argument of that name, when the event carries one. *)
Definition confirm (g : string) (value : option Z) : M unit :=
  post (valid_event g)
       {| kw_value := value; kw_change := None; kw_queue := None |}.

(** One confirmation after the other. *)
Definition confirm_all (cs : list (string * option Z)) : M unit :=
  for_each cs (fun c => confirm c.1 c.2).

(** The state a handler leaves behind, whether it returned or raised. *)
Definition exec {A} (m : M A) (w : World) : World := (m w).2.

(** No observer is subscribed to the 'valid' topic of any configured group. *)
Definition no_valid_observers (w : World) : Prop :=
  Forall (fun grp => handlers_for (valid_event (name grp))
                                  (registered_handlers w) = [])
         (score_reel_groups w).

(** ** Ball device on the smart-virtual platform *)

Module BallDevice.

(** Modelled from the spec: the ball device class and the smart-virtual
    platform are not part of the sources at hand, only their test is.
    [balls] are physically present, [available_balls] are not committed to
    an eject in flight, and [pending_ejects] holds, for every eject in
    flight, the transit time still to elapse. *)
Record BallDeviceState := {
  balls : nat;
  available_balls : nat;
  pending_ejects : list nat
}.

Definition empty : BallDeviceState :=
  {| balls := 0; available_balls := 0; pending_ejects := [] |}.

(** Modelled from the spec: a ball switch of the device is hit, one more
    ball is present and available. *)
Definition hit_switch (s : BallDeviceState) : BallDeviceState :=
  {| balls := S (balls s);
     available_balls := S (available_balls s);
     pending_ejects := pending_ejects s |}.

(** Modelled from the spec: an eject request reserves a ball at once and
    leaves [balls] alone.  The spec does not say what a request does on a
    device without an available ball. *)
Definition eject (transit_delay : nat) (s : BallDeviceState)
    : option BallDeviceState :=
  match available_balls s with
  | O => None
  | S n => Some {| balls := balls s;
                   available_balls := n;
                   pending_ejects := pending_ejects s ++ [transit_delay] |}
  end.

(** Modelled from the spec: when [dt] time units pass, every eject whose
    transit delay has elapsed takes its ball out of the device. *)
Definition advance_time (dt : nat) (s : BallDeviceState) : BallDeviceState :=
  {| balls := (balls s
               - length (filter (fun t => t <= dt)%nat (pending_ejects s)))%nat;
     available_balls := available_balls s;
     pending_ejects :=
       (fun t => (t - dt)%nat)
         <$> filter (fun t => ¬ (t <= dt)%nat) (pending_ejects s) |}.

(** Every ball that is present is either available or reserved. *)
Definition consistent (s : BallDeviceState) : Prop :=
  (available_balls s + length (pending_ejects s))%nat = balls s.

End BallDevice.

(** ** Notions used in the statements *)

(** The state after a queue step that commanded [next_group], and the state
    after the step that found the queue empty while holding token [q]. *)
Definition after_step (next_group : string) (rest : list string) (value : Z)
    (w : World) : World :=
  set_calls (calls w ++ [SetValue next_group value])
    (set_registered_handlers
       (registered_handlers w ++ [(valid_event next_group, H_reset_next_group)])
       (set_reset_queue rest w)).

Definition after_last (q : nat) (w : World) : World :=
  set_registered_handlers
    (filter (fun eh => eh.2 ≠ H_reset_next_group) (registered_handlers w))
    (set_queue None (set_calls (calls w ++ [QueueClear q]) w)).

(** The state in which [game_starting] hands over to [_reset_next_group]. *)
Definition cycle_entry (q : nat) (w : World) : World :=
  set_reset_queue (merge_sort String.le (name <$> score_reel_groups w))
    (set_calls (calls w ++ [QueueWait q]) (set_queue (Some q) w)).

(** Each group of [gs] confirms once, in this order, with the payload that
    [payload] gives for it. *)
Definition confirmations (payload : string -> option Z) (gs : list string)
    : list (string * option Z) :=
  (fun g => (g, payload g)) <$> gs.

Definition reset_commands (gs : list string) : list Command :=
  (fun g => SetValue g 0) <$> gs.

Definition reset_order (w : World) : list string :=
  merge_sort String.le (name <$> score_reel_groups w).

(** ** A machine with three score reel groups *)

Definition reel (n : string) (t : list string) (v : Z) : ScoreReelGroup :=
  {| name := n; tags := t; assumed_value_int := v; lit := false |}.

Definition player1 : Player := {| index := 0; number := 1; score := 0 |}.
Definition player2 : Player := {| index := 1; number := 2; score := 0 |}.
Definition player3 : Player := {| index := 2; number := 3; score := 0 |}.

(** Configured in the order c, a, b; two of them carry a player tag. *)
Definition three_reels : World :=
  init [reel "c" [] 7; reel "a" ["player1"] 120; reel "b" ["player2"] 0]
       [player1] player1.

(** The cycle of token 7 after group a confirmed: b is in flight, c queued. *)
Definition mid_cycle : World :=
  exec (game_starting 7 ;; confirm "a" (Some 0)) three_reels.

(** The coordinator holds a token that was not cleared, or groups that are
    still queued for their reset. *)
Definition cycle_in_flight (w : World) : Prop :=
  is_Some (queue w) \/ reset_queue w ≠ [].

(** Running [m] leaves the held token and the reset queue as they were. *)
Definition cycle_undisturbed_by (m : M unit) (w : World) : Prop :=
  queue (exec m w) = queue w /\ reset_queue (exec m w) = reset_queue w.

Definition player_tag (w : World) : string :=
  "player" +:+ pretty (number (player w)).

(** A machine on which no group is tagged for player 1: group b is tagged
    for player 2 and group c is free. *)
Definition untagged_first_player : World :=
  init [reel "c" [] 0; reel "b" ["player2"] 0] [player1] player1.

(** The groups after [unlight] was called on every group of [xs]. *)
Definition unlit (xs : list ScoreReelGroup) (groups : list ScoreReelGroup)
    : list ScoreReelGroup :=
  (fun grp => if decide (name grp ∈ name <$> xs)
              then with_lit false grp else grp) <$> groups.

(** The first thing the handler does: bind the player if the map is shorter
    than the list of players. *)
Definition binding_step (w : World) : M unit :=
  if decide (length (player_to_scorereel_map w) < length (player_list w))%nat
  then map_new_score_reel_group
  else ret tt.

Definition lit_only (g : string) (groups : list ScoreReelGroup)
    : list ScoreReelGroup :=
  (fun grp => with_lit (bool_decide (name grp = g)) grp) <$> groups.

Definition sync_commands (g : string) (shown : Z) (w : World) : list Command :=
  (if decide (shown ≠ score (player w))
   then [SetValue g (score (player w))] else [])
  ++ ((fun grp => Unlight (name grp)) <$> score_reel_groups w)
  ++ [Light g].

Definition keeps_map {A} (m : M A) : Prop :=
  forall w, player_to_scorereel_map (exec m w) = player_to_scorereel_map w.

(** The players in [turns] take a turn one after the other: the game makes
    each of them the current player, with the list of players as it is then,
    and the turn-started handler runs. *)
Definition take_turns (turns : list (list Player * Player)) : M unit :=
  for_each turns (fun t => modify (set_game t.1 t.2) ;; rotate_player).

(** Two players are in the game and player 1 has taken a first turn. *)
Definition after_first_turn : World :=
  exec rotate_player (set_game [player1; player2] player1 three_reels).

(** ** Notions used in the further properties *)

(** Running [m] leaves the part [proj] of the state as it was, whether [m]
    returns or raises. *)
Definition keeps {A B} (proj : World -> B) (m : M A) : Prop :=
  forall w, proj (exec m w) = proj w.

(** What a reset cycle works on, and what the binding of players works on. *)
Definition cycle_fields (w : World)
    : list string * option nat * list (string * Handler) :=
  (reset_queue w, queue w, registered_handlers w).

Definition binding_fields (w : World)
    : list string * option string * list ScoreReelGroup :=
  (player_to_scorereel_map w, active_scorereelgroup w, score_reel_groups w).

(** The binding of players alone: the map and the active group. *)
Definition player_fields (w : World) : list string * option string :=
  (player_to_scorereel_map w, active_scorereelgroup w).

(** The calls of a reset cycle: on the token, and [set_value] on a group. *)
Definition is_cycle_call (c : Command) : Prop :=
  match c with
  | QueueWait _ | QueueClear _ | SetValue _ _ => True
  | AddValue _ _ _ | Light _ | Unlight _ => False
  end.

(** The subscriptions of the handlers other than [_reset_next_group]. *)
Definition static_subscriptions (w : World) : list (string * Handler) :=
  filter (fun eh => eh.2 ≠ H_reset_next_group) (registered_handlers w).


(** A whole reset cycle with token [q]: [game_starting], then every group
    confirms once, in the order in which the groups are commanded. *)
Definition reset_cycle (q : nat) (payload : string -> option Z) : M unit :=
  w <- get ;;
  game_starting q ;;
  confirm_all (confirmations payload (reset_order w)).

Definition cycle_calls (q : nat) (order : list string) : list Command :=
  QueueWait q :: reset_commands order ++ [QueueClear q].

(** The name of the first configured group that carries [tag]. *)
Definition tagged_name (tag : string) (groups : list ScoreReelGroup)
    : option string :=
  name <$> head (items_tagged tag groups).

(** Score changes delivered one after the other, each as (value, change). *)
Definition score_changes (cs : list (Z * Z)) : M unit :=
  for_each cs (fun c => score_change c.1 c.2).

(** Every entry of the map and the active group, if any, is the name of a
    configured group: no reference dangles. *)
Definition references_configured (w : World) : Prop :=
  Forall (fun g => g ∈ name <$> score_reel_groups w) (player_to_scorereel_map w)
  /\ forall a, active_scorereelgroup w = Some a ->
               a ∈ name <$> score_reel_groups w.


(** The value of a confirmation as the handler reads it. *)
Definition reported (payload : string -> option Z) (g : string) : Z :=
  default 0 (payload g).

(** The commands of a cycle over [order] when the groups report the values
    [payload]: the first group is commanded to 0 and every other group to
    the value reported by the group before it. *)
Definition relayed_commands (payload : string -> option Z)
    (order : list string) : list Command :=
  zip_with SetValue order (0 :: (reported payload <$> order)).

(** * Properties *)

(** ** Running handler code *)

Ltac run_handler :=
  unfold exec, map_new_score_reel_group, score_change, _reset_next_group,
    game_starting, set_value, add_value, add_handler, remove_handler,
    record_call, list_index, bind, get, modify, ret, raise;
  simpl.

Lemma bind_ok {A B} (m : M A) (k : A -> M B) w a w' :
  m w = (Ok a, w') -> bind m k w = k a w'.
Proof. unfold bind. by intros ->. Qed.

(** ** The queue step and the start of a reset cycle *)

Lemma reset_next_group_step w next_group rest value :
  reset_queue w = next_group :: rest ->
  _reset_next_group value w = (Ok tt, after_step next_group rest value w).
Proof. intros Hq. run_handler. by rewrite Hq. Qed.

Lemma reset_next_group_last w q value :
  reset_queue w = [] -> queue w = Some q ->
  _reset_next_group value w = (Ok tt, after_last q w).
Proof. intros Hq Ht. run_handler. by rewrite Hq, Ht. Qed.

Lemma reset_next_group_no_token w value :
  reset_queue w = [] -> queue w = None ->
  _reset_next_group value w = (Raise AttributeError, w).
Proof. intros Hq Ht. run_handler. by rewrite Hq, Ht. Qed.

Lemma game_starting_entry w q :
  game_starting q w = _reset_next_group 0 (cycle_entry q w).
Proof. reflexivity. Qed.

(** ** Topics of the confirmation events *)

Lemma list_ascii_of_string_app (s1 s2 : string) :
  String.list_ascii_of_string (s1 +:+ s2)
  = String.list_ascii_of_string s1 ++ String.list_ascii_of_string s2.
Proof. induction s1 as [|c s1 IH]; [done|]. cbn. by rewrite <- IH. Qed.

Lemma string_app_inv_tail (s1 s2 s : string) : s1 +:+ s = s2 +:+ s -> s1 = s2.
Proof.
  intros H%(f_equal String.list_ascii_of_string).
  rewrite !list_ascii_of_string_app in H. apply app_inv_tail in H.
  rewrite <- (String.string_of_list_ascii_of_string s1),
          <- (String.string_of_list_ascii_of_string s2).
  by rewrite H.
Qed.

Lemma valid_event_inj (g1 g2 : string) :
  valid_event g1 = valid_event g2 -> g1 = g2.
Proof.
  unfold valid_event. intros H%String.app_inj. by apply string_app_inv_tail in H.
Qed.

Lemma handlers_for_app event reg1 reg2 :
  handlers_for event (reg1 ++ reg2)
  = handlers_for event reg1 ++ handlers_for event reg2.
Proof. unfold handlers_for. by rewrite filter_app, fmap_app. Qed.

Lemma handlers_for_valid_same g :
  handlers_for (valid_event g) [(valid_event g, H_reset_next_group)]
  = [H_reset_next_group].
Proof.
  unfold handlers_for. rewrite filter_cons_True by done. by rewrite filter_nil.
Qed.

Lemma handlers_for_valid_other g1 g2 h :
  g1 ≠ g2 -> handlers_for (valid_event g1) [(valid_event g2, h)] = [].
Proof.
  intros Hne. unfold handlers_for. rewrite filter_cons_False; [done|].
  simpl. intros H. by apply Hne, valid_event_inj.
Qed.

Lemma handlers_for_unsubscribed event h reg :
  handlers_for event reg = [] ->
  handlers_for event (filter (fun eh => eh.2 ≠ h) reg) = [].
Proof.
  unfold handlers_for. intros H%fmap_nil_inv.
  enough (filter (fun eh : string * Handler => eh.1 = event)
            (filter (fun eh : string * Handler => eh.2 ≠ h) reg) = [])
    as -> by done.
  induction reg as [|eh reg IH]; [done|].
  rewrite filter_cons in H. destruct (decide (eh.1 = event)) as [He|He]; [done|].
  rewrite filter_cons. destruct (decide (eh.2 ≠ h)); [|by apply IH].
  rewrite filter_cons_False by done. by apply IH.
Qed.

(** ** Delivery of a confirmation *)

Lemma for_each_one {A} (x : A) (body : A -> M unit) w :
  for_each [x] body w = body x w.
Proof. simpl. unfold bind, ret. by destruct (body x w) as [[[]|e] w']. Qed.

Lemma confirm_unobserved g value w :
  handlers_for (valid_event g) (registered_handlers w) = [] ->
  confirm g value w = (Ok tt, w).
Proof. intros H. unfold confirm, post, bind, get. by rewrite H. Qed.

Lemma confirm_observed g value w :
  handlers_for (valid_event g) (registered_handlers w) = [H_reset_next_group] ->
  confirm g value w = _reset_next_group (default 0 value) w.
Proof.
  intros H. unfold confirm, post. unfold bind at 1. unfold get. rewrite H.
  by rewrite for_each_one.
Qed.

(** ** A whole reset cycle *)

Lemma confirm_all_take_cons payload g gs k w :
  confirm_all (take (S k) (confirmations payload (g :: gs))) w
  = bind (confirm g (payload g))
         (fun _ => confirm_all (take k (confirmations payload gs))) w.
Proof. reflexivity. Qed.

(** What the first [k] confirmations of a running cycle do, when [g] is the
    group in flight and [pending] is still queued. *)
Lemma cycle_run (payload : string -> option Z) (q : nat) :
  forall (pending : list string) (g : string) (w : World) (k : nat),
    queue w = Some q ->
    reset_queue w = pending ->
    handlers_for (valid_event g) (registered_handlers w) = [H_reset_next_group] ->
    Forall (fun x => handlers_for (valid_event x) (registered_handlers w) = [])
           pending ->
    NoDup pending ->
    Forall (fun x => default 0 (payload x) = 0) (g :: pending) ->
    exists w',
      confirm_all (take k (confirmations payload (g :: pending))) w = (Ok tt, w')
      /\ calls w' = calls w ++ reset_commands (take k pending)
                     ++ (if decide (length pending < k)%nat
                         then [QueueClear q] else [])
      /\ score_reel_groups w' = score_reel_groups w
      /\ player_to_scorereel_map w' = player_to_scorereel_map w
      /\ active_scorereelgroup w' = active_scorereelgroup w
      /\ ((length pending < k)%nat ->
          queue w' = None /\ reset_queue w' = []
          /\ registered_handlers w'
             = filter (fun eh => eh.2 ≠ H_reset_next_group)
                      (registered_handlers w)).
Proof.
  induction pending as [|g' pending IH]; intros g w k Hq Hr Hg Hp Hnd Hz.
  - destruct k as [|k].
    + exists w. simpl.
      split_and!; [done | by rewrite app_nil_r | done | done | done | lia].
    + exists (after_last q w). apply Forall_cons in Hz as [Hzg _].
      rewrite confirm_all_take_cons.
      erewrite bind_ok;
        [|rewrite (confirm_observed _ _ _ Hg); by apply reset_next_group_last].
      split_and!; try done. simpl. by rewrite take_nil.
  - destruct k as [|k].
    + exists w. simpl.
      split_and!; [done | by rewrite app_nil_r | done | done | done | lia].
    + apply Forall_cons in Hp as [Hg' Hp]. apply NoDup_cons in Hnd as [Hnin Hnd].
      apply Forall_cons in Hz as [Hzg Hz].
      set (w1 := after_step g' pending 0 w).
      destruct (IH g' w1 k) as (w' & Hrun & Hc & Hs & Hm & Ha & Hfin); try done.
      * simpl. rewrite handlers_for_app, Hg'. apply handlers_for_valid_same.
      * simpl. apply Forall_forall. intros x Hx.
        rewrite handlers_for_app, (proj1 (Forall_forall _ _) Hp x Hx).
        apply handlers_for_valid_other. intros ->. done.
      * exists w'. split.
        { rewrite confirm_all_take_cons.
          erewrite bind_ok; [exact Hrun|].
          rewrite (confirm_observed _ _ _ Hg), Hzg.
          by apply reset_next_group_step. }
        rewrite Hc, Hs, Hm, Ha. simpl.
        split_and!; try done.
        { rewrite <- !app_assoc. simpl.
          destruct (decide (length pending < k)%nat),
                   (decide (S (length pending) < S k)%nat); try done; lia. }
        intros Hlt. destruct Hfin as (-> & -> & ->); [lia|].
        split_and!; try done. simpl.
        rewrite filter_app, filter_cons_False, filter_nil, app_nil_r; [done|].
        simpl. by intros [].
Qed.

Lemma reset_order_Permutation w : reset_order w ≡ₚ name <$> score_reel_groups w.
Proof. apply merge_sort_Permutation. Qed.

Lemma reset_order_unobserved w x :
  no_valid_observers w -> x ∈ reset_order w ->
  handlers_for (valid_event x) (registered_handlers w) = [].
Proof.
  intros Hidle Hx. rewrite reset_order_Permutation in Hx.
  apply list_elem_of_fmap in Hx as (grp & -> & Hgrp).
  by apply (proj1 (Forall_forall _ _) Hidle).
Qed.

(** [game_starting] followed by the first [k] confirmations of the cycle. *)
Lemma reset_cycle_run (w : World) (q : nat) (payload : string -> option Z)
    (k : nat) :
  NoDup (name <$> score_reel_groups w) ->
  no_valid_observers w ->
  Forall (fun g => default 0 (payload g) = 0) (reset_order w) ->
  exists w',
    (game_starting q ;;
     confirm_all (take k (confirmations payload (reset_order w)))) w
    = (Ok tt, w')
    /\ calls w' = calls w ++ QueueWait q :: reset_commands (take (S k) (reset_order w))
                   ++ (if decide (length (reset_order w) <= k)%nat
                       then [QueueClear q] else [])
    /\ score_reel_groups w' = score_reel_groups w
    /\ player_to_scorereel_map w' = player_to_scorereel_map w
    /\ active_scorereelgroup w' = active_scorereelgroup w
    /\ ((length (reset_order w) <= k)%nat ->
        queue w' = None /\ reset_queue w' = []
        /\ registered_handlers w'
           = filter (fun eh => eh.2 ≠ H_reset_next_group)
                    (registered_handlers w)).
Proof.
  intros Hnd Hidle Hz.
  assert (NoDup (reset_order w)) as Hnd'
    by (by rewrite reset_order_Permutation).
  pose proof (fun x => reset_order_unobserved w x Hidle) as Hun.
  assert (reset_queue (cycle_entry q w) = reset_order w) as Hentry by done.
  destruct (reset_order w) as [|g pending] eqn:Horder.
  - exists (after_last q (cycle_entry q w)). split.
    { erewrite bind_ok;
        [|rewrite game_starting_entry; by apply reset_next_group_last].
      simpl. by rewrite take_nil. }
    simpl. split_and!; try done; by rewrite <- ?app_assoc.
  - apply NoDup_cons in Hnd' as [Hnin Hnd'].
    set (w1 := after_step g pending 0 (cycle_entry q w)).
    destruct (cycle_run payload q pending g w1 k)
      as (w' & Hrun & Hc & Hs & Hm & Ha & Hfin); try done.
    + simpl. rewrite handlers_for_app, Hun by left.
      apply handlers_for_valid_same.
    + simpl. apply Forall_forall. intros x Hx.
      rewrite handlers_for_app, Hun by (by right).
      apply handlers_for_valid_other. by intros ->.
    + exists w'. split.
      { erewrite bind_ok; [exact Hrun|].
        rewrite game_starting_entry. by apply reset_next_group_step. }
      rewrite Hc, Hs, Hm, Ha. simpl. split_and!; try done.
      * rewrite <- !app_assoc. simpl.
        destruct (decide (length pending < k)%nat),
                 (decide (S (length pending) <= k)%nat); try done; lia.
      * intros Hle. destruct Hfin as (-> & -> & ->); [lia|].
        split_and!; try done. simpl.
        rewrite filter_app, filter_cons_False, filter_nil, app_nil_r; [done|].
        simpl. by intros [].
Qed.







(** C10. Only the command issued by [game_starting] itself is a fixed
    [set_value(0)]; a command issued when a confirmation is delivered to the
    subscribed handler carries the [value] of that event, or 0 when the event
    has none. *)
Theorem reset_value_comes_from_confirmation :
  (forall (w : World) (q : nat) (g : string) (rest : list string),
      reset_order w = g :: rest ->
      game_starting q w = (Ok tt, after_step g rest 0 (cycle_entry q w))
      /\ calls (exec (game_starting q) w)
         = calls w ++ [QueueWait q; SetValue g 0])
  /\ (forall (w : World) (g next_group : string) (rest : list string)
             (value : option Z),
         handlers_for (valid_event g) (registered_handlers w)
         = [H_reset_next_group] ->
         reset_queue w = next_group :: rest ->
         confirm g value w
         = (Ok tt, after_step next_group rest (default 0 value) w)
         /\ calls (exec (confirm g value) w)
            = calls w ++ [SetValue next_group (default 0 value)]).
Proof.
  split.
  - intros w q g rest Horder.
    assert (game_starting q w = (Ok tt, after_step g rest 0 (cycle_entry q w)))
      as H by (rewrite game_starting_entry; by apply reset_next_group_step).
    split; [done|]. unfold exec. rewrite H. simpl. by rewrite <- app_assoc.
  - intros w g next_group rest value Hg Hq.
    assert (confirm g value w
            = (Ok tt, after_step next_group rest (default 0 value) w)) as H
      by (rewrite confirm_observed by done; by apply reset_next_group_step).
    split; [done|]. unfold exec. by rewrite H.
Qed.

(** Group a confirms with the value 5, and group b is commanded to 5. *)
Lemma reset_value_comes_from_confirmation_witness :
  calls (exec (game_starting 7) three_reels) = [QueueWait 7; SetValue "a" 0]
  /\ calls (exec (confirm "a" (Some 5)) (exec (game_starting 7) three_reels))
     = [QueueWait 7; SetValue "a" 0; SetValue "b" 5].
Proof.
  destruct reset_value_comes_from_confirmation as [Hfirst Hnext].
  split.
  - destruct (Hfirst three_reels 7%nat "a" ["b"; "c"]) as [_ Hcalls].
    + by vm_compute.
    + rewrite Hcalls. by vm_compute.
  - destruct (Hnext (exec (game_starting 7) three_reels) "a" "b" ["c"] (Some 5))
      as [_ Hcalls].
    + by vm_compute.
    + by vm_compute.
    + rewrite Hcalls. by vm_compute.
Defined.

(** ** Re-entering [game_starting] *)

(** C5, as stated, fails: in the middle of the cycle of token 7, with group c
    still queued, a second [game_starting] with token 8 replaces the token
    and rebuilds the queue. *)
Lemma game_starting_reenters :
  cycle_in_flight mid_cycle
  /\ queue mid_cycle = Some 7%nat
  /\ reset_queue mid_cycle = ["c"]
  /\ queue (exec (game_starting 8) mid_cycle) = Some 8%nat
  /\ reset_queue (exec (game_starting 8) mid_cycle) = ["b"; "c"]
  /\ ~ cycle_undisturbed_by (game_starting 8) mid_cycle.
Proof.
  split_and!; try by vm_compute.
  - left. exists 7%nat. by vm_compute.
  - intros [H _]. vm_compute in H. discriminate H.
Qed.

(** C5, amended. [game_starting] has no reentrancy guard: whatever token and
    reset queue the coordinator holds, it takes the new token and calls
    [wait()] on it, rebuilds the reset queue from all configured groups in
    ascending order of name and commands the first of them to zero; with no
    group configured it clears the new token at once.  It makes no call on a
    token held before. *)
Theorem game_starting_restarts (w : World) (q : nat) :
  exists w',
    game_starting q w = (Ok tt, w')
    /\ match reset_order w with
       | [] =>
           queue w' = None /\ reset_queue w' = []
           /\ calls w' = calls w ++ [QueueWait q; QueueClear q]
       | g :: rest =>
           queue w' = Some q /\ reset_queue w' = rest
           /\ calls w' = calls w ++ [QueueWait q; SetValue g 0]
       end.
Proof.
  assert (reset_queue (cycle_entry q w) = reset_order w) as Hentry by done.
  rewrite game_starting_entry.
  destruct (reset_order w) as [|g rest].
  - exists (after_last q (cycle_entry q w)).
    split; [by apply reset_next_group_last|].
    simpl. by rewrite <- app_assoc.
  - exists (after_step g rest 0 (cycle_entry q w)).
    split; [by apply reset_next_group_step|].
    simpl. by rewrite <- app_assoc.
Qed.

(** ** Lifetime of the completion observers *)




(** ** Binding a new player *)

Lemma map_new_score_reel_group_tagged w reel_group rest :
  items_tagged (player_tag w) (score_reel_groups w) = reel_group :: rest ->
  map_new_score_reel_group w
  = (Ok tt, set_player_to_scorereel_map
              (player_to_scorereel_map w ++ [name reel_group]) w).
Proof. intros H. run_handler. fold (player_tag w). by rewrite H. Qed.

Lemma map_new_score_reel_group_fallback w first :
  items_tagged (player_tag w) (score_reel_groups w) = [] ->
  player_to_scorereel_map w !! 0%nat = Some first ->
  map_new_score_reel_group w
  = (Ok tt, set_player_to_scorereel_map (player_to_scorereel_map w ++ [first]) w).
Proof. intros H H0. run_handler. fold (player_tag w). by rewrite H, H0. Qed.

Lemma map_new_score_reel_group_raises w :
  items_tagged (player_tag w) (score_reel_groups w) = [] ->
  player_to_scorereel_map w = [] ->
  map_new_score_reel_group w = (Raise IndexError, w).
Proof. intros H H0. run_handler. fold (player_tag w). by rewrite H, H0. Qed.

(** C3. Binding a new player: when no configured group carries the tag of
    the player's number and index 0 is bound, the player shares the group of
    index 0; when a group carries the tag, the player gets the (first) tagged
    group.  Either way exactly one entry is appended to the map and nothing
    else changes: no call is made on a group and no group is altered. *)
Theorem map_new_score_reel_group_appends (w : World) (g : string) :
  match items_tagged ("player" +:+ pretty (number (player w)))
                     (score_reel_groups w) with
  | reel_group :: _ => g = name reel_group
  | [] => player_to_scorereel_map w !! 0%nat = Some g
  end ->
  exists w',
    map_new_score_reel_group w = (Ok tt, w')
    /\ w' = set_player_to_scorereel_map (player_to_scorereel_map w ++ [g]) w
    /\ player_to_scorereel_map w' = player_to_scorereel_map w ++ [g]
    /\ score_reel_groups w' = score_reel_groups w
    /\ calls w' = calls w
    /\ active_scorereelgroup w' = active_scorereelgroup w.
Proof.
  intros H. eexists. split; [|by split_and!].
  fold (player_tag w) in H.
  destruct (items_tagged (player_tag w) (score_reel_groups w))
    as [|reel_group rest] eqn:Htag.
  - by apply map_new_score_reel_group_fallback.
  - subst g. by eapply map_new_score_reel_group_tagged.
Qed.

(** Player 2 has a tagged group, b; player 3 has none and shares group a,
    which is bound to index 0. *)
Lemma map_new_score_reel_group_appends_witness :
  (exists w',
      map_new_score_reel_group
        (set_game [player1; player2] player2
           (set_player_to_scorereel_map ["a"] three_reels)) = (Ok tt, w')
      /\ player_to_scorereel_map w' = ["a"; "b"])
  /\ (exists w',
         map_new_score_reel_group
           (set_game [player1; player2; player3] player3
              (set_player_to_scorereel_map ["a"; "b"] three_reels)) = (Ok tt, w')
         /\ player_to_scorereel_map w' = ["a"; "b"; "a"]).
Proof.
  split.
  - destruct (map_new_score_reel_group_appends
                (set_game [player1; player2] player2
                   (set_player_to_scorereel_map ["a"] three_reels)) "b")
      as (w' & Hrun & _ & Hmap & _).
    + by vm_compute.
    + exists w'. split; [exact Hrun|]. rewrite Hmap. by vm_compute.
  - destruct (map_new_score_reel_group_appends
                (set_game [player1; player2; player3] player3
                   (set_player_to_scorereel_map ["a"; "b"] three_reels)) "a")
      as (w' & Hrun & _ & Hmap & _).
    + by vm_compute.
    + exists w'. split; [exact Hrun|]. rewrite Hmap. by vm_compute.
Defined.

(** C6: the first player without a tagged group.  On a machine with a group
    tagged for player 2 and a free group, binding player 1 raises
    [IndexError] from the fallback's lookup of entry 0 in the empty map, and
    so does the turn-started handler; no entry is made. *)
Lemma first_player_without_tag_raises :
  player_to_scorereel_map untagged_first_player = []
  /\ map_new_score_reel_group untagged_first_player
     = (Raise IndexError, untagged_first_player)
  /\ rotate_player untagged_first_player
     = (Raise IndexError, untagged_first_player).
Proof. split_and!; by vm_compute. Qed.

(** ** Score changes *)

(** C7. A score change of 0, or one that arrives while no score reel group is
    active, does nothing: no call is made and the state is what it was. *)
Theorem score_change_without_effect (w : World) (value change : Z) :
  change = 0 \/ active_scorereelgroup w = None ->
  score_change value change w = (Ok tt, w).
Proof.
  intros [-> | Hnone]; run_handler.
  - by destruct (active_scorereelgroup w).
  - by rewrite Hnone.
Qed.

(** A change of 0 with group a active, and a change of 500 with no active
    group. *)
Lemma score_change_without_effect_witness :
  score_change 1500 0 (set_active_scorereelgroup (Some "a") three_reels)
  = (Ok tt, set_active_scorereelgroup (Some "a") three_reels)
  /\ score_change 1500 500 three_reels = (Ok tt, three_reels).
Proof.
  split.
  - apply score_change_without_effect. left. reflexivity.
  - apply score_change_without_effect. right. reflexivity.
Defined.

(** A score change that does reach the active group. *)
Lemma score_change_adds w g value change :
  active_scorereelgroup w = Some g -> change ≠ 0 ->
  calls (exec (score_change value change) w)
  = calls w ++ [AddValue g change value].
Proof.
  intros Ha Hc. run_handler. rewrite Ha.
  by destruct (decide (change ≠ 0)).
Qed.

(** ** The turn-started handler *)

Lemma unlit_nil groups : unlit [] groups = groups.
Proof.
  unfold unlit. rewrite <- (list_fmap_id groups) at 2.
  apply list_fmap_ext. intros i grp _. simpl.
  destruct (decide (name grp ∈ [])) as [H|]; [|done]. by apply not_elem_of_nil in H.
Qed.

Lemma unlit_cons x xs groups :
  unlit xs (alter_group (with_lit false) (name x) groups) = unlit (x :: xs) groups.
Proof.
  unfold unlit, alter_group. rewrite <- list_fmap_compose, fmap_cons.
  apply list_fmap_ext. intros i grp _. simpl.
  destruct (decide (name grp = name x)) as [Heq|Hne]; simpl;
    destruct (decide (name grp ∈ name <$> xs)) as [Hin|Hnin];
    destruct (decide (name grp ∈ name x :: (name <$> xs))) as [Hc|Hc];
    try done; exfalso.
  - apply Hc. by right.
  - apply Hc. rewrite Heq. by left.
  - apply Hc. by right.
  - by apply elem_of_cons in Hc as [?|?].
Qed.

Lemma unlit_all groups : unlit groups groups = with_lit false <$> groups.
Proof.
  unfold unlit. apply list_fmap_ext. intros i grp Hi. simpl.
  rewrite decide_True; [done|].
  apply list_elem_of_fmap. exists grp. split; [done|].
  by eapply list_elem_of_lookup_2.
Qed.

Lemma unlight_each xs w :
  for_each xs (fun group => unlight (name group)) w
  = (Ok tt, set_score_reel_groups (unlit xs (score_reel_groups w))
              (set_calls (calls w ++ ((fun grp => Unlight (name grp)) <$> xs)) w)).
Proof.
  revert w. induction xs as [|x xs IH]; intros w.
  - simpl. unfold ret. rewrite unlit_nil, app_nil_r. by destruct w.
  - simpl. unfold bind at 1. unfold unlight at 1. run_handler.
    rewrite IH. simpl. by rewrite unlit_cons, <- app_assoc.
Qed.

Lemma light_after_unlit g groups :
  alter_group (with_lit true) g (with_lit false <$> groups)
  = (fun grp => with_lit (bool_decide (name grp = g)) grp) <$> groups.
Proof.
  unfold alter_group. rewrite <- list_fmap_compose.
  apply list_fmap_ext. intros i grp _. simpl.
  destruct (decide (name grp = g)) as [Heq|Hne].
  - by rewrite bool_decide_true.
  - by rewrite bool_decide_false.
Qed.

Lemma map_new_score_reel_group_frame w r w1 :
  map_new_score_reel_group w = (r, w1) ->
  w1 = set_player_to_scorereel_map (player_to_scorereel_map w1) w.
Proof.
  run_handler.
  destruct (items_tagged _ _) as [|reel_group rest].
  - destruct (player_to_scorereel_map w !! 0%nat) as [first|] eqn:H0;
      intros [= <- <-]; by destruct w.
  - intros [= <- <-]. by destruct w.
Qed.

Lemma binding_step_frame w r w1 :
  binding_step w w = (r, w1) ->
  w1 = set_player_to_scorereel_map (player_to_scorereel_map w1) w.
Proof.
  unfold binding_step. destruct (decide _).
  - apply map_new_score_reel_group_frame.
  - unfold ret. intros [= <- <-]. by destruct w.
Qed.

(** The handler from the binding step on, when the player's entry exists. *)
Lemma rotate_player_run w w1 g grp :
  binding_step w w = (Ok tt, w1) ->
  player_to_scorereel_map w1 !! index (player w) = Some g ->
  find_group g (score_reel_groups w) = Some grp ->
  rotate_player w
  = (Ok tt,
     set_score_reel_groups (lit_only g (score_reel_groups w))
       (set_calls (calls w ++ sync_commands g (assumed_value_int grp) w)
          (set_active_scorereelgroup (Some g)
             (set_player_to_scorereel_map (player_to_scorereel_map w1) w)))).
Proof.
  intros Hbind Hidx Hfind.
  pose proof (binding_step_frame _ _ _ Hbind) as Hw1.
  unfold rotate_player.
  rewrite (bind_ok get _ w w w) by done.
  fold (binding_step w). rewrite (bind_ok _ _ _ _ _ Hbind).
  rewrite (bind_ok get _ w1 w1 w1) by done.
  assert (player w1 = player w) as Hp by (by rewrite Hw1).
  assert (score_reel_groups w1 = score_reel_groups w) as Hg by (by rewrite Hw1).
  assert (calls w1 = calls w) as Hc by (by rewrite Hw1).
  rewrite Hp.
  erewrite bind_ok; [|unfold list_index; by rewrite Hidx].
  erewrite bind_ok; [|reflexivity].
  erewrite bind_ok;
    [|unfold get_assumed_value_int, bind, get; simpl; rewrite Hg, Hfind; reflexivity].
  unfold sync_commands, lit_only.
  destruct (decide (assumed_value_int grp ≠ score (player w))) as [Hne|Heq].
  all: erewrite bind_ok; [|reflexivity].
  all: erewrite bind_ok; [|reflexivity].
  all: simpl; rewrite Hg.
  all: erewrite bind_ok; [|apply unlight_each].
  all: unfold light; run_handler.
  all: rewrite Hg, unlit_all, light_after_unlit, Hc, <- !app_assoc.
  all: f_equal; rewrite Hw1; reflexivity.
Qed.

(** C8. A turn-started notification whose binding step succeeds and leaves
    the current player's entry [g] in the map: the handler makes [g] the
    active group, issues [set_value(score)] on it exactly when the value it
    assumes differs from the player's score and no value command otherwise,
    then unlights every configured group and lights [g]; afterwards [g] is
    lit and every other configured group is not. *)
Theorem rotate_player_synchronises (w w1 : World) (g : string)
    (grp : ScoreReelGroup) :
  binding_step w w = (Ok tt, w1) ->
  player_to_scorereel_map w1 !! index (player w) = Some g ->
  find_group g (score_reel_groups w) = Some grp ->
  exists w',
    rotate_player w = (Ok tt, w')
    /\ player_to_scorereel_map w' = player_to_scorereel_map w1
    /\ active_scorereelgroup w' = Some g
    /\ calls w'
       = calls w
         ++ (if decide (assumed_value_int grp ≠ score (player w))
             then [SetValue g (score (player w))] else [])
         ++ ((fun grp' => Unlight (name grp')) <$> score_reel_groups w)
         ++ [Light g]
    /\ score_reel_groups w'
       = (fun grp' => with_lit (bool_decide (name grp' = g)) grp')
           <$> score_reel_groups w
    /\ (forall grp', grp' ∈ score_reel_groups w' ->
                     lit grp' = bool_decide (name grp' = g)).
Proof.
  intros Hbind Hidx Hfind. eexists. split; [by eapply rotate_player_run|].
  simpl. split_and!; try done.
  intros grp' (grp0 & -> & _)%list_elem_of_fmap. done.
Qed.

(** The first turn of player 1 on the three-reel machine: group a is tagged
    for the player and shows 120 while the score is 0. *)
Lemma rotate_player_synchronises_witness :
  exists w',
    rotate_player three_reels = (Ok tt, w')
    /\ calls w' = [SetValue "a" 0; Unlight "c"; Unlight "a"; Unlight "b";
                   Light "a"]
    /\ lit <$> score_reel_groups w' = [false; true; false].
Proof.
  destruct (rotate_player_synchronises three_reels
              (set_player_to_scorereel_map ["a"] three_reels) "a"
              (reel "a" ["player1"] 120))
    as (w' & Hrun & _ & _ & Hcalls & Hgroups & _).
  - by vm_compute.
  - by vm_compute.
  - by vm_compute.
  - exists w'. split; [exact Hrun|]. rewrite Hcalls, Hgroups. by vm_compute.
Defined.

(** ** The map of players to score reel groups *)

Lemma keeps_map_bind {A B} (m : M A) (k : A -> M B) :
  keeps_map m -> (forall a, keeps_map (k a)) -> keeps_map (bind m k).
Proof.
  intros Hm Hk w. specialize (Hm w). unfold exec, bind in *.
  destruct (m w) as [[a|e] w1]; simpl in Hm; [|done].
  rewrite <- Hm. apply Hk.
Qed.

Lemma keeps_map_modify (f : World -> World) :
  (forall w, player_to_scorereel_map (f w) = player_to_scorereel_map w) ->
  keeps_map (modify f).
Proof. intros Hf w. apply Hf. Qed.

Lemma keeps_map_const {A} (r : Res A) : keeps_map (fun w => (r, w)).
Proof. by intros w. Qed.

Lemma keeps_map_for_each {A} (xs : list A) (body : A -> M unit) :
  (forall x, keeps_map (body x)) -> keeps_map (for_each xs body).
Proof.
  intros Hb. induction xs as [|x xs IH]; simpl.
  - apply keeps_map_const.
  - apply keeps_map_bind; [apply Hb | by intros _].
Qed.

Create HintDb keeps_map.
#[local] Hint Resolve keeps_map_const keeps_map_for_each : keeps_map.
#[local] Hint Extern 1 (keeps_map (bind _ _)) =>
  apply keeps_map_bind; [|intros ?] : keeps_map.
#[local] Hint Extern 1 (keeps_map (modify _)) =>
  apply keeps_map_modify; intros ?; reflexivity : keeps_map.
#[local] Hint Extern 1 (keeps_map (ret _)) => apply keeps_map_const : keeps_map.
#[local] Hint Extern 1 (keeps_map get) => intros ?; reflexivity : keeps_map.
#[local] Hint Extern 1 (keeps_map (raise _)) => apply keeps_map_const : keeps_map.

Lemma keeps_map_list_index {A} (l : list A) i : keeps_map (list_index l i).
Proof. unfold list_index. destruct (l !! i); auto with keeps_map. Qed.

Lemma keeps_map_set_value g v : keeps_map (set_value g v).
Proof. unfold set_value, record_call. auto with keeps_map. Qed.

Lemma keeps_map_light g : keeps_map (light g).
Proof. unfold light, record_call. auto with keeps_map. Qed.

Lemma keeps_map_unlight g : keeps_map (unlight g).
Proof. unfold unlight, record_call. auto with keeps_map. Qed.

Lemma keeps_map_get_assumed_value_int g : keeps_map (get_assumed_value_int g).
Proof.
  unfold get_assumed_value_int. apply keeps_map_bind; [auto with keeps_map|].
  intros w. destruct (find_group _ _); auto with keeps_map.
Qed.

#[local] Hint Resolve keeps_map_list_index keeps_map_set_value keeps_map_light
  keeps_map_unlight keeps_map_get_assumed_value_int : keeps_map.

(** Only the binding step of the handler touches the map. *)
Lemma rotate_player_map w :
  player_to_scorereel_map (exec rotate_player w)
  = player_to_scorereel_map (exec (binding_step w) w).
Proof.
  unfold rotate_player. unfold exec at 1. rewrite (bind_ok get _ w w w) by done.
  fold (binding_step w). unfold exec, bind at 1.
  destruct (binding_step w w) as [[[]|e] w1]; [|done].
  simpl.
  match goal with
  | |- player_to_scorereel_map (?m w1).2 = _ =>
      change (player_to_scorereel_map (exec m w1) = player_to_scorereel_map w1);
      generalize w1; change (keeps_map m)
  end.
  apply keeps_map_bind; [auto with keeps_map|]. intros w2.
  apply keeps_map_bind; [auto with keeps_map|]. intros g.
  apply keeps_map_bind; [auto with keeps_map|]. intros _.
  apply keeps_map_bind; [auto with keeps_map|]. intros shown.
  apply keeps_map_bind; [destruct (decide _); auto with keeps_map|]. intros _.
  apply keeps_map_bind; [auto with keeps_map|]. intros w3.
  apply keeps_map_bind; [|auto with keeps_map].
  apply keeps_map_for_each. auto with keeps_map.
Qed.

Lemma binding_step_appends w :
  player_to_scorereel_map (exec (binding_step w) w) = player_to_scorereel_map w
  \/ exists g, player_to_scorereel_map (exec (binding_step w) w)
               = player_to_scorereel_map w ++ [g].
Proof.
  unfold binding_step, exec. destruct (decide _); [|by left].
  run_handler. destruct (items_tagged _ _) as [|reel_group rest].
  - destruct (player_to_scorereel_map w !! 0%nat) as [first|]; simpl; eauto.
  - simpl. eauto.
Qed.

Lemma find_group_configured g groups :
  g ∈ name <$> groups -> is_Some (find_group g groups).
Proof.
  intros (grp & -> & Hin)%list_elem_of_fmap. unfold find_group.
  destruct (list_find (fun grp' => name grp' = name grp) groups)
    as [[i grp']|] eqn:Hfind; [by eexists|].
  exfalso. eapply list_find_None in Hfind.
  by apply (proj1 (Forall_forall _ _) Hfind grp).
Qed.

Lemma lit_only_names g groups : name <$> lit_only g groups = name <$> groups.
Proof.
  unfold lit_only. rewrite <- list_fmap_compose. by apply list_fmap_ext.
Qed.

Lemma take_first_turns turns :
  forall (w : World) (n : nat),
    length (player_to_scorereel_map w) = n ->
    Forall (fun g => g ∈ name <$> score_reel_groups w)
           (player_to_scorereel_map w) ->
    (forall i pl p, turns !! i = Some (pl, p) ->
                    index p = (n + i)%nat /\ (n + i < length pl)%nat) ->
    (n = 0%nat -> forall pl p, turns !! 0%nat = Some (pl, p) ->
       items_tagged ("player" +:+ pretty (number p)) (score_reel_groups w) ≠ []) ->
    exists w',
      take_turns turns w = (Ok tt, w')
      /\ length (player_to_scorereel_map w') = (n + length turns)%nat.
Proof.
  induction turns as [|[pl p] turns IH]; intros w n Hlen Hrefs Hturns Hfirst.
  - exists w. split; [done|]. simpl. lia.
  - destruct (Hturns 0%nat pl p eq_refl) as [Hidx Hlt].
    rewrite Nat.add_0_r in Hidx, Hlt.
    set (wa := set_game pl p w).
    assert (exists g, binding_step wa wa
              = (Ok tt, set_player_to_scorereel_map
                          (player_to_scorereel_map w ++ [g]) wa)
              /\ g ∈ name <$> score_reel_groups w) as (g & Hbind & Hg).
    { unfold binding_step. rewrite decide_True by (simpl; lia).
      destruct (items_tagged (player_tag wa) (score_reel_groups wa))
        as [|reel_group rest] eqn:Htag.
      - destruct (player_to_scorereel_map w !! 0%nat) as [first|] eqn:H0.
        + exists first. split.
          * exact (map_new_score_reel_group_fallback wa first Htag H0).
          * apply (proj1 (Forall_forall _ _) Hrefs).
            by eapply list_elem_of_lookup_2.
        + exfalso. apply lookup_ge_None in H0.
          apply (Hfirst ltac:(lia) pl p eq_refl). exact Htag.
      - exists (name reel_group). split.
        + exact (map_new_score_reel_group_tagged wa reel_group rest Htag).
        + apply list_elem_of_fmap. exists reel_group. split; [done|].
          assert (reel_group ∈ items_tagged (player_tag wa) (score_reel_groups wa))
            as Hin by (rewrite Htag; left).
          by apply list_elem_of_filter in Hin as [_ ?]. }
    destruct (find_group_configured g (score_reel_groups wa) Hg) as [grp Hgrp].
    pose proof (rotate_player_run wa _ g grp Hbind) as Hrun.
    simpl in Hrun. rewrite Hidx, <- Hlen in Hrun.
    rewrite lookup_app_r, Nat.sub_diag in Hrun by done.
    specialize (Hrun eq_refl Hgrp).
    match type of Hrun with _ = (Ok tt, ?w2) => set (w' := w2) in * end.
    destruct (IH w' (S n)) as (w'' & Hrest & Hlen'').
    + simpl. rewrite length_app. simpl. lia.
    + simpl. rewrite lit_only_names. apply Forall_app. split; [done|].
      by apply Forall_singleton.
    + intros i pl' p' Hi. destruct (Hturns (S i) pl' p' Hi) as [? ?].
      split; lia.
    + done.
    + exists w''. split.
      * change (take_turns ((pl, p) :: turns) w)
          with (bind (bind (modify (set_game pl p)) (fun _ => rotate_player))
                     (fun _ => take_turns turns) w).
        erewrite bind_ok; [exact Hrest|].
        erewrite bind_ok; [exact Hrun|done].
      * rewrite Hlen''. simpl. lia.
Qed.

(** C2: a second turn of a bound player.  Two players are in the game and
    player 1, bound at index 0 to its tagged group a, takes another turn
    before player 2 has taken one.  The map is shorter than the list of
    players, so the handler binds again: it looks up the tag of the current
    player, player 1, and appends group a at index 1, the slot of player 2.
    Player 2, for whom group b is tagged, is then shown on group a. *)
Lemma rebound_player_takes_next_slot :
  player_list after_first_turn = [player1; player2]
  /\ player_to_scorereel_map after_first_turn = ["a"]
  /\ index (player after_first_turn) = 0%nat
  /\ player_to_scorereel_map after_first_turn !! index (player after_first_turn)
     = Some "a"
  /\ rotate_player after_first_turn
     = (Ok tt, exec rotate_player after_first_turn)
  /\ player_to_scorereel_map (exec rotate_player after_first_turn) = ["a"; "a"]
  /\ tagged_name "player2" (score_reel_groups after_first_turn) = Some "b"
  /\ active_scorereelgroup
       (exec (modify (set_game [player1; player2] player2) ;; rotate_player)
             (exec rotate_player after_first_turn))
     = Some "a".
Proof. split_and!; by vm_compute. Qed.

(** What the binding of the turn-started handler does in every case: it adds
    no entry when the map is at least as long as the list of players, it
    appends at most one entry otherwise, and it never changes an existing
    entry.  For players who take their first turns in the order of their
    indices 0..N-1, each being in the list of players at the time and the
    first one having a tagged group, every turn succeeds and the map has
    length N afterwards. *)
Theorem rotate_player_binds_by_length :
  (forall w : World,
      (length (player_list w) <= length (player_to_scorereel_map w))%nat ->
      player_to_scorereel_map (exec rotate_player w) = player_to_scorereel_map w)
  /\ (forall w : World,
         player_to_scorereel_map (exec rotate_player w) = player_to_scorereel_map w
         \/ exists g, player_to_scorereel_map (exec rotate_player w)
                      = player_to_scorereel_map w ++ [g])
  /\ (forall (w : World) (turns : list (list Player * Player)),
         player_to_scorereel_map w = [] ->
         (fun t => index t.2) <$> turns = seq 0 (length turns) ->
         Forall (fun t => (index t.2 < length t.1)%nat) turns ->
         match turns with
         | [] => True
         | t :: _ => items_tagged ("player" +:+ pretty (number t.2))
                                  (score_reel_groups w) ≠ []
         end ->
         exists w',
           take_turns turns w = (Ok tt, w')
           /\ length (player_to_scorereel_map w') = length turns).
Proof.
  split_and!.
  - intros w Hle. rewrite rotate_player_map. unfold binding_step.
    by rewrite decide_False by lia.
  - intros w. rewrite rotate_player_map. apply binding_step_appends.
  - intros w turns Hmap Hidx Hin Hfirst.
    destruct (take_first_turns turns w 0%nat) as (w' & Hrun & Hlen).
    + by rewrite Hmap.
    + by rewrite Hmap.
    + intros i pl p Hi. simpl.
      assert (((fun t : list Player * Player => index t.2) <$> turns) !! i
              = Some (index p)) as Hp by (by rewrite list_lookup_fmap, Hi).
      rewrite Hidx in Hp. apply lookup_seq in Hp as [Hp _]. simpl in Hp.
      split; [done|]. rewrite <- Hp.
      by apply (proj1 (Forall_forall _ _) Hin (pl, p)), list_elem_of_lookup_2 with i.
    + intros _ pl p Ht. destruct turns as [|t turns]; [done|].
      by injection Ht as ->.
    + by exists w'.
Qed.

(** Three players take their first turns on the three-reel machine; the
    third one has no tagged group. *)
Lemma rotate_player_binds_by_length_witness :
  (exists w',
    take_turns [([player1], player1);
                ([player1; player2], player2);
                ([player1; player2; player3], player3)] three_reels
    = (Ok tt, w')
    /\ length (player_to_scorereel_map w') = 3%nat)
  /\ player_to_scorereel_map
       (exec rotate_player (set_player_to_scorereel_map ["a"] three_reels))
     = ["a"].
Proof.
  destruct rotate_player_binds_by_length as (Hkeep & _ & H).
  split.
  - apply (H three_reels).
    + reflexivity.
    + reflexivity.
    + apply (bool_decide_unpack _). by vm_compute.
    + apply (bool_decide_unpack _). by vm_compute.
  - apply (Hkeep (set_player_to_scorereel_map ["a"] three_reels)).
    simpl. lia.
Defined.

(** ** Ejecting from the trough *)

Module BallDeviceFacts.
Import BallDevice.

Lemma advance_time_available dt s :
  available_balls (advance_time dt s) = available_balls s.
Proof. reflexivity. Qed.

Lemma eject_consistent delay s s1 :
  consistent s -> eject delay s = Some s1 -> consistent s1.
Proof.
  unfold consistent, eject. intros Hc.
  destruct (available_balls s) as [|n] eqn:Ha; [done|].
  intros [= <-]. simpl. rewrite length_app. simpl. lia.
Qed.

Lemma advance_time_consistent dt s :
  consistent s -> consistent (advance_time dt s).
Proof.
  unfold consistent. intros Hc. simpl. rewrite length_fmap.
  pose proof (filter_app_complement (fun t => (t <= dt)%nat) (pending_ejects s))
    as Hperm.
  apply Permutation_length in Hperm. rewrite length_app in Hperm. lia.
Qed.

Lemma hit_switch_consistent s : consistent s -> consistent (hit_switch s).
Proof. unfold consistent. simpl. lia. Qed.

(** C9. A trough holding two balls, both available: [eject()] leaves
    [balls] at 2 and takes [available_balls] to 1 at once; as long as the
    transit delay has not elapsed the two counts stay so, and once it has
    elapsed [balls] is 1 and [available_balls] still 1.  At each of these
    points [available_balls <= balls]. *)
Theorem eject_reserves_then_departs (delay : nat) (s : BallDeviceState) :
  consistent s -> balls s = 2%nat -> available_balls s = 2%nat ->
  exists s1,
    eject delay s = Some s1
    /\ balls s1 = 2%nat /\ available_balls s1 = 1%nat
    /\ (forall dt, (dt < delay)%nat ->
          balls (advance_time dt s1) = 2%nat
          /\ available_balls (advance_time dt s1) = 1%nat)
    /\ (forall dt, (delay <= dt)%nat ->
          balls (advance_time dt s1) = 1%nat
          /\ available_balls (advance_time dt s1) = 1%nat)
    /\ (available_balls s <= balls s)%nat
    /\ (available_balls s1 <= balls s1)%nat
    /\ (forall dt, (available_balls (advance_time dt s1)
                    <= balls (advance_time dt s1))%nat).
Proof.
  intros Hc Hb Ha.
  assert (pending_ejects s = []) as Hp.
  { unfold consistent in Hc. apply length_zero_iff_nil. lia. }
  unfold eject. rewrite Ha. eexists. split; [reflexivity|]. simpl.
  rewrite Hb, Hp. simpl.
  assert (forall dt, (dt < delay)%nat ->
            filter (fun t => (t <= dt)%nat) [delay] = []) as Hearly.
  { intros dt Hdt. rewrite filter_cons_False by lia. apply filter_nil. }
  assert (forall dt, (delay <= dt)%nat ->
            filter (fun t => (t <= dt)%nat) [delay] = [delay]) as Hlate.
  { intros dt Hdt. rewrite filter_cons_True by lia. by rewrite filter_nil. }
  split_and!; try lia.
  - intros dt Hdt. by rewrite Hearly.
  - intros dt Hdt. by rewrite Hlate.
  - intros dt. destruct (decide (dt < delay)%nat).
    + rewrite Hearly by done. simpl. lia.
    + rewrite Hlate by lia. simpl. lia.
Qed.

(** The trough of the test: empty, then both ball switches are hit. *)
Lemma eject_reserves_then_departs_witness :
  exists s1,
    eject 10 (hit_switch (hit_switch empty)) = Some s1
    /\ balls s1 = 2%nat /\ available_balls s1 = 1%nat
    /\ balls (advance_time 30 s1) = 1%nat
    /\ available_balls (advance_time 30 s1) = 1%nat.
Proof.
  destruct (eject_reserves_then_departs 10 (hit_switch (hit_switch empty)))
    as (s1 & He & Hb & Ha & _ & Hlate & _).
  - reflexivity.
  - reflexivity.
  - reflexivity.
  - exists s1. destruct (Hlate 30%nat) as [Hb' Ha']; [lia|].
    by split_and!.
Defined.

End BallDeviceFacts.

(** * Further properties of the controller *)

(** ** What a handler leaves alone *)

Lemma keeps_bind {A B C} (proj : World -> C) (m : M A) (k : A -> M B) :
  keeps proj m -> (forall a, keeps proj (k a)) -> keeps proj (bind m k).
Proof.
  intros Hm Hk w. specialize (Hm w). unfold exec, bind in *.
  destruct (m w) as [[a|e] w1]; simpl in Hm; [|done].
  rewrite <- Hm. apply Hk.
Qed.

Lemma keeps_for_each {A C} (proj : World -> C) (xs : list A)
    (body : A -> M unit) :
  (forall x, keeps proj (body x)) -> keeps proj (for_each xs body).
Proof.
  intros Hb. induction xs as [|x xs IH]; simpl.
  - by intros w.
  - apply keeps_bind; [apply Hb | by intros _].
Qed.

Ltac keeps_step :=
  first
    [ apply keeps_bind; [|intros ?]
    | apply keeps_for_each; intros ?
    | match goal with
      | |- keeps _ (match ?x with _ => _ end) => destruct x
      end
    | progress unfold rotate_player, map_new_score_reel_group, score_change,
        _reset_next_group, game_starting, set_value, add_value, light, unlight,
        record_call, list_index, get_assumed_value_int
    | solve [intros ?; reflexivity] ].

Lemma keeps_cycle_rotate_player : keeps cycle_fields rotate_player.
Proof. repeat keeps_step. Qed.

Lemma keeps_cycle_score_change value change :
  keeps cycle_fields (score_change value change).
Proof. repeat keeps_step. Qed.

(** X1. The turn-started and the score-changed handler themselves never
    assign the reset queue or the held token and never subscribe or
    unsubscribe a handler, whether they return or raise: these three are the
    same after the call as before. *)
Theorem player_handlers_keep_cycle (w : World) (value change : Z) :
  cycle_fields (exec rotate_player w) = cycle_fields w
  /\ cycle_fields (exec (score_change value change) w) = cycle_fields w.
Proof.
  split; [apply keeps_cycle_rotate_player | apply keeps_cycle_score_change].
Qed.

Lemma keeps_binding_reset_next_group value :
  keeps binding_fields (_reset_next_group value).
Proof.
  unfold _reset_next_group, add_handler, remove_handler. repeat keeps_step.
Qed.

Lemma keeps_binding_game_starting q : keeps binding_fields (game_starting q).
Proof.
  unfold game_starting.
  do 6 (apply keeps_bind; [solve [intros ?; reflexivity]|]; intros ?).
  apply keeps_binding_reset_next_group.
Qed.

Lemma keeps_binding_score_change value change :
  keeps binding_fields (score_change value change).
Proof. repeat keeps_step. Qed.

Lemma reset_next_group_calls w value :
  exists cs,
    calls (exec (_reset_next_group value) w) = calls w ++ cs
    /\ Forall is_cycle_call cs.
Proof.
  unfold exec. destruct (reset_queue w) as [|next_group rest] eqn:Hq.
  - destruct (queue w) as [q|] eqn:Ht.
    + rewrite (reset_next_group_last _ q) by done.
      exists [QueueClear q]. split; [done|]. by repeat constructor.
    + rewrite reset_next_group_no_token by done.
      exists []. split; [by rewrite app_nil_r|]. constructor.
  - rewrite (reset_next_group_step _ _ _ _ Hq).
    exists [SetValue next_group value]. split; [done|]. by repeat constructor.
Qed.

(** X2. The handlers of the reset cycle never change the map of players or
    the active group, whether they return or raise, and the only calls they
    make are [wait()] and [clear()] on the token and [set_value] on a group:
    they never light or unlight a group and never call [add_value]. *)
Theorem cycle_handlers_keep_players (w : World) (q : nat) (value : Z) :
  (player_fields (exec (game_starting q) w) = player_fields w
   /\ exists cs, calls (exec (game_starting q) w) = calls w ++ cs
                 /\ Forall is_cycle_call cs)
  /\ (player_fields (exec (_reset_next_group value) w) = player_fields w
      /\ exists cs, calls (exec (_reset_next_group value) w) = calls w ++ cs
                    /\ Forall is_cycle_call cs).
Proof.
  split; split.
  - pose proof (keeps_binding_game_starting q w) as H.
    unfold player_fields. by injection H as -> -> _.
  - destruct (reset_next_group_calls (cycle_entry q w) 0) as (cs & Hc & Hcs).
    exists (QueueWait q :: cs). split; [|by constructor].
    unfold exec in *. rewrite game_starting_entry, Hc. simpl.
    by rewrite <- app_assoc.
  - pose proof (keeps_binding_reset_next_group value w) as H.
    unfold player_fields. by injection H as -> -> _.
  - apply reset_next_group_calls.
Qed.

Lemma keeps_static_add_observer g :
  keeps static_subscriptions (add_handler (valid_event g) H_reset_next_group).
Proof.
  intros w. unfold static_subscriptions, exec, add_handler, modify. simpl.
  rewrite filter_app, filter_cons_False, filter_nil, app_nil_r; [done|].
  simpl. by intros [].
Qed.

Lemma keeps_static_remove_observers :
  keeps static_subscriptions (remove_handler H_reset_next_group).
Proof.
  intros w. unfold static_subscriptions, exec, remove_handler, modify. simpl.
  apply list_filter_filter_l. by intros [e h].
Qed.

Lemma keeps_static_reset_next_group value :
  keeps static_subscriptions (_reset_next_group value).
Proof.
  unfold _reset_next_group. apply keeps_bind; [by intros w|]. intros w.
  destruct (reset_queue w) as [|next_group rest].
  - apply keeps_bind; [destruct (queue w); by intros w1|]. intros _.
    apply keeps_bind; [by intros w1|]. intros _.
    apply keeps_static_remove_observers.
  - apply keeps_bind; [by intros w1|]. intros _.
    apply keeps_bind; [apply keeps_static_add_observer|]. intros _.
    by intros w1.
Qed.

Lemma keeps_static_call_handler h kw :
  keeps static_subscriptions (call_handler h kw).
Proof.
  destruct h; simpl.
  - intros w. unfold static_subscriptions.
    pose proof (keeps_cycle_rotate_player w) as H.
    by injection H as _ _ ->.
  - destruct (kw_value kw) as [value|]; [|by intros w].
    destruct (kw_change kw) as [change|]; [|by intros w].
    intros w. unfold static_subscriptions.
    pose proof (keeps_cycle_score_change value change w) as H.
    by injection H as _ _ ->.
  - destruct (kw_queue kw) as [q|]; [|by intros w].
    unfold game_starting. do 6 (apply keeps_bind; [by intros w|]; intros ?).
    apply keeps_static_reset_next_group.
  - apply keeps_static_reset_next_group.
Qed.

(** X3. Delivering any event never subscribes or unsubscribes the handlers
    for turn starts, score changes and game starts: only observers of
    [_reset_next_group] come and go, so the [remove_handler] at the end of
    a reset cycle removes nothing else. *)
Theorem post_keeps_static_subscriptions (event : string) (kw : Payload)
    (w : World) :
  static_subscriptions (exec (post event kw) w) = static_subscriptions w.
Proof.
  revert w. change (keeps static_subscriptions (post event kw)).
  unfold post. apply keeps_bind; [by intros w|]. intros w.
  apply keeps_for_each. intros h. apply keeps_static_call_handler.
Qed.

(** ** States of a reset cycle *)





(** ** Whole cycles, one after the other *)

Lemma reset_cycle_full (w : World) (q : nat) (payload : string -> option Z) :
  NoDup (name <$> score_reel_groups w) ->
  no_valid_observers w ->
  Forall (fun g => default 0 (payload g) = 0) (reset_order w) ->
  exists w',
    reset_cycle q payload w = (Ok tt, w')
    /\ calls w' = calls w ++ cycle_calls q (reset_order w)
    /\ binding_fields w' = binding_fields w
    /\ queue w' = None
    /\ reset_queue w' = []
    /\ registered_handlers w' = static_subscriptions w.
Proof.
  intros Hnd Hidle Hz.
  destruct (reset_cycle_run w q payload (length (reset_order w)) Hnd Hidle Hz)
    as (w' & Hrun & Hc & Hs & Hm & Ha & Hfin).
  destruct Hfin as (Hq & Hrq & Hreg); [done|].
  exists w'. split_and!; try done.
  - unfold reset_cycle. rewrite (bind_ok get _ w w w) by done.
    rewrite <- Hrun. unfold confirmations.
    by rewrite <- (length_fmap (fun g => (g, payload g))), firstn_all.
  - rewrite Hc, decide_True by done.
    by rewrite take_ge by lia.
  - unfold binding_fields. by rewrite Hs, Hm, Ha.
Qed.

Lemma no_valid_observers_static w w' :
  no_valid_observers w ->
  score_reel_groups w' = score_reel_groups w ->
  registered_handlers w' = static_subscriptions w ->
  no_valid_observers w'.
Proof.
  unfold no_valid_observers. intros Hidle -> ->.
  eapply Forall_impl; [exact Hidle|]. intros grp Hgrp. simpl in *.
  by apply handlers_for_unsubscribed.
Qed.

(** X5. A completed reset cycle leaves the coordinator ready for the next
    one.  When every confirmation reports 0 or carries no value, two whole
    cycles in a row, with tokens [q1] and [q2], both run to their end and
    make the same calls, each on its own token: [wait()], [set_value(0)] on
    every group in ascending order of name, [clear()].  The map of players
    and the active group are what they were, and afterwards no token is
    held, the reset queue is empty and no observer is subscribed. *)
Theorem reset_cycles_compose (w : World) (q1 q2 : nat)
    (payload : string -> option Z) :
  NoDup (name <$> score_reel_groups w) ->
  no_valid_observers w ->
  Forall (fun g => default 0 (payload g) = 0) (reset_order w) ->
  exists w',
    (reset_cycle q1 payload ;; reset_cycle q2 payload) w = (Ok tt, w')
    /\ calls w' = calls w ++ cycle_calls q1 (reset_order w)
                   ++ cycle_calls q2 (reset_order w)
    /\ player_fields w' = player_fields w
    /\ queue w' = None /\ reset_queue w' = []
    /\ no_valid_observers w'.
Proof.
  intros Hnd Hidle Hz.
  destruct (reset_cycle_full w q1 payload Hnd Hidle Hz)
    as (w1 & Hrun1 & Hc1 & Hb1 & _ & _ & Hreg1).
  assert (score_reel_groups w1 = score_reel_groups w) as Hg1
    by (by injection Hb1).
  assert (reset_order w1 = reset_order w) as Ho1
    by (unfold reset_order; by rewrite Hg1).
  pose proof (no_valid_observers_static w w1 Hidle Hg1 Hreg1) as Hidle1.
  destruct (reset_cycle_full w1 q2 payload)
    as (w2 & Hrun2 & Hc2 & Hb2 & Hq2 & Hrq2 & Hreg2).
  - by rewrite Hg1.
  - done.
  - by rewrite Ho1.
  - exists w2. split_and!; try done.
    + by erewrite bind_ok.
    + by rewrite Hc2, Hc1, Ho1, <- app_assoc.
    + unfold player_fields. injection Hb2 as -> -> _.
      by injection Hb1 as -> -> _.
    + apply (no_valid_observers_static w1); [done|by injection Hb2|done].
Qed.

Lemma reset_cycles_compose_witness :
  exists w',
    (reset_cycle 7 (fun _ => Some 0) ;; reset_cycle 8 (fun _ => Some 0))
      three_reels = (Ok tt, w')
    /\ calls w'
       = [QueueWait 7; SetValue "a" 0; SetValue "b" 0; SetValue "c" 0;
          QueueClear 7;
          QueueWait 8; SetValue "a" 0; SetValue "b" 0; SetValue "c" 0;
          QueueClear 8].
Proof.
  destruct (reset_cycles_compose three_reels 7 8 (fun _ => Some 0))
    as (w' & Hrun & Hcalls & _).
  - apply (bool_decide_unpack _). by vm_compute.
  - repeat constructor.
  - apply (bool_decide_unpack _). by vm_compute.
  - exists w'. split; [exact Hrun|]. rewrite Hcalls. by vm_compute.
Defined.



(** ** A freshly initialised controller *)

Lemma valid_event_not_static g :
  valid_event g ≠ "player_turn_started"
  /\ valid_event g ≠ "player_score"
  /\ valid_event g ≠ "game_starting".
Proof. split_and!; intros H; cbv in H; discriminate H. Qed.

Lemma init_unobserved groups pl p g :
  handlers_for (valid_event g) (registered_handlers (init groups pl p)) = [].
Proof.
  destruct (valid_event_not_static g) as (H1 & H2 & H3).
  unfold handlers_for, init, registered_handlers.
  rewrite !filter_cons_False by (simpl; congruence). done.
Qed.

(** X7. Right after [__init__], whatever the score reel groups are called,
    no confirmation topic collides with the three topics the controller
    subscribes to, so a confirmation reaches no handler; and the first
    [game_starting] runs a whole reset cycle: [wait()], [set_value(0)] on
    every group in ascending order of name, [clear()]. *)
Theorem fresh_controller_resets (groups : list ScoreReelGroup)
    (pl : list Player) (p : Player) (q : nat) (payload : string -> option Z) :
  NoDup (name <$> groups) ->
  Forall (fun g => default 0 (payload g) = 0)
         (merge_sort String.le (name <$> groups)) ->
  (forall g value,
      confirm g value (init groups pl p) = (Ok tt, init groups pl p))
  /\ exists w',
       reset_cycle q payload (init groups pl p) = (Ok tt, w')
       /\ calls w' = cycle_calls q (merge_sort String.le (name <$> groups))
       /\ registered_handlers w' = registered_handlers (init groups pl p).
Proof.
  intros Hnd Hz. split.
  - intros g value. apply confirm_unobserved, init_unobserved.
  - destruct (reset_cycle_full (init groups pl p) q payload)
      as (w' & Hrun & Hc & _ & _ & _ & Hreg); try done.
    { apply Forall_forall. intros grp _. apply init_unobserved. }
    exists w'. split_and!; done.
Qed.

Lemma fresh_controller_resets_witness :
  exists w',
    reset_cycle 7 (fun _ => None) three_reels = (Ok tt, w')
    /\ calls w' = [QueueWait 7; SetValue "a" 0; SetValue "b" 0; SetValue "c" 0;
                   QueueClear 7].
Proof.
  destruct (fresh_controller_resets
              [reel "c" [] 7; reel "a" ["player1"] 120; reel "b" ["player2"] 0]
              [player1] player1 7 (fun _ => None))
    as (_ & w' & Hrun & Hcalls & _).
  - apply (bool_decide_unpack _). by vm_compute.
  - apply (bool_decide_unpack _). by vm_compute.
  - exists w'. split; [exact Hrun|]. rewrite Hcalls. by vm_compute.
Defined.

(** ** The order of a reset cycle *)

Lemma game_starting_result w q :
  game_starting q w
  = (Ok tt,
     match reset_order w with
     | [] => after_last q (cycle_entry q w)
     | g :: rest => after_step g rest 0 (cycle_entry q w)
     end).
Proof.
  assert (reset_queue (cycle_entry q w) = reset_order w) as Hentry by done.
  rewrite game_starting_entry. destruct (reset_order w) as [|g rest].
  - by apply reset_next_group_last.
  - by apply reset_next_group_step.
Qed.

Lemma reset_order_same w1 w2 :
  name <$> score_reel_groups w1 ≡ₚ name <$> score_reel_groups w2 ->
  reset_order w1 = reset_order w2.
Proof.
  intros Hperm. apply (Sorted_unique String.le).
  - apply Sorted_merge_sort; apply _.
  - apply Sorted_merge_sort; apply _.
  - by rewrite !reset_order_Permutation.
Qed.

(** X8. What [game_starting] does depends only on which names are
    configured, not on the order of the device collection: on two machines
    whose collections hold the same names in any order it makes the same
    calls, so it commands the same group first, the one with the least
    name, and it leaves the same groups in the reset queue, in ascending
    order of name. *)
Theorem game_starting_ignores_configuration_order (w1 w2 : World) (q : nat) :
  name <$> score_reel_groups w1 ≡ₚ name <$> score_reel_groups w2 ->
  exists order,
    Sorted String.le order
    /\ order ≡ₚ name <$> score_reel_groups w1
    /\ reset_queue (exec (game_starting q) w1) = tail order
    /\ reset_queue (exec (game_starting q) w2) = tail order
    /\ exists cs,
         calls (exec (game_starting q) w1) = calls w1 ++ QueueWait q :: cs
         /\ calls (exec (game_starting q) w2) = calls w2 ++ QueueWait q :: cs
         /\ cs = match order with
                 | [] => [QueueClear q]
                 | g :: _ => [SetValue g 0]
                 end.
Proof.
  intros Hperm. exists (reset_order w1).
  pose proof (reset_order_same w1 w2 Hperm) as Hsame.
  unfold exec. rewrite !game_starting_result, <- Hsame.
  split_and!.
  - apply Sorted_merge_sort; apply _.
  - apply reset_order_Permutation.
  - by destruct (reset_order w1) eqn:Ho.
  - destruct (reset_order w1) eqn:Ho; [|done].
    simpl. fold (reset_order w2). by rewrite <- Hsame.
  - eexists. split_and!; [| |reflexivity];
      destruct (reset_order w1); simpl; by rewrite <- app_assoc.
Qed.

Lemma game_starting_ignores_configuration_order_witness :
  reset_queue (exec (game_starting 7) three_reels) = ["b"; "c"]
  /\ reset_queue
       (exec (game_starting 7)
             (init [reel "b" [] 0; reel "c" [] 0; reel "a" [] 0] [] player1))
     = ["b"; "c"].
Proof.
  destruct (game_starting_ignores_configuration_order three_reels
              (init [reel "b" [] 0; reel "c" [] 0; reel "a" [] 0] [] player1) 7)
    as (order & _ & _ & H1 & H2 & _).
  - apply (bool_decide_unpack _). by vm_compute.
  - rewrite H2, <- H1. split; by vm_compute.
Defined.

(** ** Turns that do not go well, and turns delivered twice *)

Lemma binding_step_raises w e w1 :
  binding_step w w = (Raise e, w1) -> e = IndexError /\ w1 = w.
Proof.
  unfold binding_step. destruct (decide _); [|done].
  run_handler. destruct (items_tagged _ _) as [|reel_group rest]; [|done].
  destruct (player_to_scorereel_map w !! 0%nat); [done|]. by intros [= <- <-].
Qed.

Lemma bind_raises {A B} (m : M A) (k : A -> M B) w e w' :
  m w = (Raise e, w') -> bind m k w = (Raise e, w').
Proof. unfold bind. by intros ->. Qed.

Lemma list_index_raises {A} (l : list A) i w :
  l !! i = None -> list_index l i w = (Raise IndexError, w).
Proof. unfold list_index. by intros ->. Qed.

(** X9. A turn of a player whose index lies beyond the end of the map (a
    player taking a turn before the players in front of it were bound)
    always raises [IndexError]: no group is made active, commanded, lit or
    unlit, although the binding step may already have appended an entry. *)
Theorem rotate_player_out_of_order (w : World) :
  (length (player_to_scorereel_map w) < index (player w))%nat ->
  exists w',
    rotate_player w = (Raise IndexError, w')
    /\ calls w' = calls w
    /\ active_scorereelgroup w' = active_scorereelgroup w
    /\ score_reel_groups w' = score_reel_groups w
    /\ (player_to_scorereel_map w' = player_to_scorereel_map w
        \/ exists g, player_to_scorereel_map w'
                     = player_to_scorereel_map w ++ [g]).
Proof.
  intros Hlt. unfold rotate_player.
  rewrite (bind_ok get _ w w w) by done. fold (binding_step w).
  pose proof (binding_step_appends w) as Happ. unfold exec in Happ.
  destruct (binding_step w w) as [[[]|e] w1] eqn:Hbind.
  - pose proof (binding_step_frame _ _ _ Hbind) as Hw1. simpl in Happ.
    exists w1. split.
    + erewrite bind_ok; [|exact Hbind].
      rewrite (bind_ok get _ w1 w1 w1) by done.
      apply bind_raises, list_index_raises.
      assert (player w1 = player w) as -> by (by rewrite Hw1).
      apply lookup_ge_None.
      destruct Happ as [-> | [g ->]]; [lia|]. rewrite length_app. simpl. lia.
    + rewrite Hw1. simpl. by split_and!.
  - pose proof (binding_step_raises _ _ _ Hbind) as [-> ->].
    exists w. split; [by apply bind_raises|]. by split_and!.
Qed.

(** Player 2 takes the first turn of the game. *)
Lemma rotate_player_out_of_order_witness :
  exists w',
    rotate_player (set_game [player1; player2] player2 three_reels)
    = (Raise IndexError, w')
    /\ calls w' = []
    /\ player_to_scorereel_map w' = ["b"].
Proof.
  destruct (rotate_player_out_of_order
              (set_game [player1; player2] player2 three_reels))
    as (w' & Hrun & Hcalls & _).
  - simpl. lia.
  - exists w'. split_and!; [exact Hrun | exact Hcalls |].
    assert (w' = exec rotate_player
                   (set_game [player1; player2] player2 three_reels)) as ->
      by (unfold exec; by rewrite Hrun).
    by vm_compute.
Defined.

Lemma find_group_cons g grp groups :
  find_group g (grp :: groups)
  = if decide (name grp = g) then Some grp else find_group g groups.
Proof.
  unfold find_group. simpl. destruct (decide (name grp = g)); [done|].
  by destruct (list_find _ groups) as [[i x]|].
Qed.

Lemma find_group_Some g groups grp :
  find_group g groups = Some grp -> name grp = g /\ grp ∈ groups.
Proof.
  induction groups as [|x groups IH]; [done|]. rewrite find_group_cons.
  destruct (decide (name x = g)) as [Hx|Hx].
  - intros [= <-]. split; [done|left].
  - intros [? ?]%IH. split; [done|by right].
Qed.

Lemma find_group_lit_only g g' groups :
  find_group g (lit_only g' groups)
  = (fun grp => with_lit (bool_decide (name grp = g')) grp) <$> find_group g groups.
Proof.
  induction groups as [|x groups IH]; [done|].
  change (lit_only g' (x :: groups))
    with (with_lit (bool_decide (name x = g')) x :: lit_only g' groups).
  rewrite !find_group_cons. simpl. by destruct (decide (name x = g)).
Qed.

Lemma lit_only_idemp g groups : lit_only g (lit_only g groups) = lit_only g groups.
Proof.
  unfold lit_only. rewrite <- list_fmap_compose. by apply list_fmap_ext.
Qed.

Lemma lit_only_unlit g groups :
  g ∉ name <$> groups ->
  filter (fun grp => lit grp = true) (lit_only g groups) = [].
Proof.
  induction groups as [|x groups IH]; [done|]. intros Hg.
  apply not_elem_of_cons in Hg as [Hne Hg].
  change (lit_only g (x :: groups))
    with (with_lit (bool_decide (name x = g)) x :: lit_only g groups).
  rewrite filter_cons_False; [by apply IH|].
  simpl. rewrite bool_decide_false; [done|]. by intros <-.
Qed.

Lemma lit_only_one g groups :
  NoDup (name <$> groups) -> g ∈ name <$> groups ->
  length (filter (fun grp => lit grp = true) (lit_only g groups)) = 1%nat.
Proof.
  induction groups as [|x groups IH]; intros Hnd Hg.
  - by apply elem_of_nil in Hg.
  - rewrite fmap_cons in Hnd, Hg. apply NoDup_cons in Hnd as [Hx Hnd].
    change (lit_only g (x :: groups))
      with (with_lit (bool_decide (name x = g)) x :: lit_only g groups).
    destruct (decide (name x = g)) as [Heq|Hne].
    + rewrite filter_cons_True by (simpl; by rewrite bool_decide_true).
      rewrite lit_only_unlit; [done|]. by rewrite <- Heq.
    + rewrite filter_cons_False
        by (simpl; rewrite bool_decide_false; [done|by intros <-]).
      apply IH; [done|]. apply elem_of_cons in Hg as [Heq|?]; [congruence|done].
Qed.

(** X10. After a turn-started notification that succeeds on a machine whose
    groups have distinct names, exactly one configured group is lit, and it
    is the active group of the current player. *)
Theorem rotate_player_lights_one (w w1 : World) (g : string)
    (grp : ScoreReelGroup) :
  NoDup (name <$> score_reel_groups w) ->
  binding_step w w = (Ok tt, w1) ->
  player_to_scorereel_map w1 !! index (player w) = Some g ->
  find_group g (score_reel_groups w) = Some grp ->
  exists w',
    rotate_player w = (Ok tt, w')
    /\ active_scorereelgroup w' = Some g
    /\ name <$> filter (fun grp' => lit grp' = true) (score_reel_groups w')
       = [g].
Proof.
  intros Hnd Hbind Hidx Hfind. eexists. split; [by eapply rotate_player_run|].
  simpl. split; [done|].
  apply find_group_Some in Hfind as [Hname Hin].
  assert (g ∈ name <$> score_reel_groups w) as Hg.
  { apply list_elem_of_fmap. by exists grp. }
  pose proof (lit_only_one g _ Hnd Hg) as Hone.
  destruct (filter _ (lit_only g (score_reel_groups w)))
    as [|x [|y l]] eqn:Hf; try done.
  assert (x ∈ filter (fun grp' => lit grp' = true)
                     (lit_only g (score_reel_groups w))) as Hx
    by (rewrite Hf; left).
  apply list_elem_of_filter in Hx as [Hlit Hx].
  apply list_elem_of_fmap in Hx as (x0 & -> & _). simpl in *.
  apply bool_decide_eq_true in Hlit. by rewrite Hlit.
Qed.

Lemma rotate_player_lights_one_witness :
  exists w',
    rotate_player three_reels = (Ok tt, w')
    /\ active_scorereelgroup w' = Some "a"
    /\ name <$> filter (fun grp' => lit grp' = true) (score_reel_groups w')
       = ["a"].
Proof.
  apply (rotate_player_lights_one three_reels
           (set_player_to_scorereel_map ["a"] three_reels) "a"
           (reel "a" ["player1"] 120)).
  - apply (bool_decide_unpack _). by vm_compute.
  - by vm_compute.
  - by vm_compute.
  - by vm_compute.
Defined.

(** X11. Delivering the turn-started notification once more for the same
    player, when the map is as long as the list of players: the second call
    changes no binding, no active group and no light; it repeats the calls
    of the first, the [set_value] included when the group still shows
    another value than the score. *)
Theorem rotate_player_twice (w : World) (g : string) (grp : ScoreReelGroup) :
  (length (player_list w) <= length (player_to_scorereel_map w))%nat ->
  player_to_scorereel_map w !! index (player w) = Some g ->
  find_group g (score_reel_groups w) = Some grp ->
  exists w1 w2,
    rotate_player w = (Ok tt, w1)
    /\ rotate_player w1 = (Ok tt, w2)
    /\ binding_fields w2 = binding_fields w1
    /\ calls w1 = calls w ++ sync_commands g (assumed_value_int grp) w
    /\ calls w2 = calls w1 ++ sync_commands g (assumed_value_int grp) w.
Proof.
  intros Hlen Hidx Hfind.
  assert (forall w0, (length (player_list w0)
                      <= length (player_to_scorereel_map w0))%nat ->
                     binding_step w0 w0 = (Ok tt, w0)) as Hnobind.
  { intros w0 H0. unfold binding_step. by rewrite decide_False by lia. }
  pose proof (rotate_player_run w w g grp (Hnobind w Hlen) Hidx Hfind) as Hrun1.
  match type of Hrun1 with _ = (Ok tt, ?x) => set (w1 := x) in * end.
  assert (find_group g (score_reel_groups w1)
          = Some (with_lit (bool_decide (name grp = g)) grp)) as Hfind1.
  { simpl. by rewrite find_group_lit_only, Hfind. }
  pose proof (rotate_player_run w1 w1 g _ (Hnobind w1 Hlen) Hidx Hfind1)
    as Hrun2.
  eexists _, _. split_and!; [exact Hrun1 | exact Hrun2 | | done |].
  - simpl. unfold binding_fields. simpl. by rewrite lit_only_idemp.
  - simpl. f_equal. unfold sync_commands. simpl. do 2 f_equal.
    unfold lit_only. rewrite <- list_fmap_compose. by apply list_fmap_ext.
Qed.

Lemma rotate_player_twice_witness :
  exists w1 w2,
    rotate_player (set_player_to_scorereel_map ["a"] three_reels) = (Ok tt, w1)
    /\ rotate_player w1 = (Ok tt, w2)
    /\ calls w2 = [SetValue "a" 0; Unlight "c"; Unlight "a"; Unlight "b";
                   Light "a";
                   SetValue "a" 0; Unlight "c"; Unlight "a"; Unlight "b";
                   Light "a"].
Proof.
  destruct (rotate_player_twice (set_player_to_scorereel_map ["a"] three_reels)
              "a" (reel "a" ["player1"] 120))
    as (w1 & w2 & H1 & H2 & _ & Hc1 & Hc2).
  - simpl. lia.
  - reflexivity.
  - by vm_compute.
  - exists w1, w2. split_and!; [exact H1 | exact H2 |].
    rewrite Hc2, Hc1. by vm_compute.
Defined.

(** ** The map after the first turns *)

Lemma tagged_name_lit_only tag g groups :
  tagged_name tag (lit_only g groups) = tagged_name tag groups.
Proof.
  unfold tagged_name, items_tagged. induction groups as [|x groups IH]; [done|].
  change (lit_only g (x :: groups))
    with (with_lit (bool_decide (name x = g)) x :: lit_only g groups).
  rewrite !filter_cons. simpl. by destruct (decide (tag ∈ tags x)).
Qed.

Lemma tagged_name_Some tag groups x :
  tagged_name tag groups = Some x ->
  exists reel_group rest,
    items_tagged tag groups = reel_group :: rest /\ name reel_group = x
    /\ x ∈ name <$> groups.
Proof.
  unfold tagged_name.
  destruct (items_tagged tag groups) as [|reel_group rest] eqn:Htag; [done|].
  intros [= <-]. exists reel_group, rest. split_and!; try done.
  apply list_elem_of_fmap. exists reel_group. split; [done|].
  assert (reel_group ∈ items_tagged tag groups) as Hin by (rewrite Htag; left).
  by apply list_elem_of_filter in Hin as [_ ?].
Qed.

Lemma tagged_name_None tag groups :
  tagged_name tag groups = None -> items_tagged tag groups = [].
Proof. unfold tagged_name. by destruct (items_tagged tag groups). Qed.

Lemma take_first_turns_map turns :
  forall (w : World) (n : nat) (g0 : string),
    length (player_to_scorereel_map w) = n ->
    Forall (fun g => g ∈ name <$> score_reel_groups w)
           (player_to_scorereel_map w) ->
    (forall i pl p, turns !! i = Some (pl, p) ->
                    index p = (n + i)%nat /\ (n + i < length pl)%nat) ->
    match player_to_scorereel_map w with
    | [] => match turns with
            | [] => True
            | t :: _ => tagged_name ("player" +:+ pretty (number t.2))
                                    (score_reel_groups w) = Some g0
            end
    | first :: _ => first = g0
    end ->
    exists w',
      take_turns turns w = (Ok tt, w')
      /\ player_to_scorereel_map w'
         = player_to_scorereel_map w
           ++ ((fun t => default g0 (tagged_name ("player" +:+ pretty (number t.2))
                                                 (score_reel_groups w)))
                 <$> turns).
Proof.
  induction turns as [|[pl p] turns IH]; intros w n g0 Hlen Hrefs Hturns Hfirst.
  - exists w. split; [done|]. by rewrite app_nil_r.
  - destruct (Hturns 0%nat pl p eq_refl) as [Hidx Hlt].
    rewrite Nat.add_0_r in Hidx, Hlt.
    set (wa := set_game pl p w).
    set (g := default g0 (tagged_name ("player" +:+ pretty (number p))
                                      (score_reel_groups w))).
    assert (binding_step wa wa
            = (Ok tt, set_player_to_scorereel_map
                        (player_to_scorereel_map w ++ [g]) wa)
            /\ g ∈ name <$> score_reel_groups w
            /\ match player_to_scorereel_map w with
               | [] => g = g0
               | first :: _ => first = g0
               end) as (Hbind & Hg & Hhead).
    { unfold binding_step. rewrite decide_True by (simpl; lia). subst g.
      destruct (tagged_name ("player" +:+ pretty (number p))
                            (score_reel_groups w)) as [x|] eqn:Htag.
      - destruct (tagged_name_Some _ _ _ Htag)
          as (reel_group & rest & Hitems & <- & Hin).
        split_and!; [|done|].
        + exact (map_new_score_reel_group_tagged wa reel_group rest Hitems).
        + simpl in Hfirst. destruct (player_to_scorereel_map w); [|done].
          rewrite Htag in Hfirst. by injection Hfirst.
      - simpl.
        destruct (player_to_scorereel_map w) as [|first m] eqn:Hmap.
        { simpl in Hfirst. congruence. }
        apply tagged_name_None in Htag.
        subst first. split_and!; [|by apply Forall_cons in Hrefs as [? _]|done].
        rewrite <- Hmap.
        apply (map_new_score_reel_group_fallback wa g0 Htag).
        simpl. by rewrite Hmap. }
    destruct (find_group_configured g (score_reel_groups wa) Hg) as [grp Hgrp].
    pose proof (rotate_player_run wa _ g grp Hbind) as Hrun.
    simpl in Hrun. rewrite Hidx, <- Hlen in Hrun.
    rewrite lookup_app_r, Nat.sub_diag in Hrun by done.
    specialize (Hrun eq_refl Hgrp).
    match type of Hrun with _ = (Ok tt, ?w2) => set (w' := w2) in * end.
    destruct (IH w' (S n) g0) as (w'' & Hrest & Hmap'').
    + simpl. rewrite length_app. simpl. lia.
    + simpl. rewrite lit_only_names. apply Forall_app. split; [done|].
      by apply Forall_singleton.
    + intros i pl' p' Hi. destruct (Hturns (S i) pl' p' Hi) as [? ?].
      split; lia.
    + simpl. destruct (player_to_scorereel_map w); simpl; done.
    + exists w''. split.
      * change (take_turns ((pl, p) :: turns) w)
          with (bind (bind (modify (set_game pl p)) (fun _ => rotate_player))
                     (fun _ => take_turns turns) w).
        erewrite bind_ok; [exact Hrest|].
        erewrite bind_ok; [exact Hrun|done].
      * rewrite Hmap''. simpl. rewrite <- app_assoc. simpl. do 2 f_equal.
        apply list_fmap_ext. intros i t _. simpl.
        by rewrite tagged_name_lit_only.
Qed.

(** X12. Players take their first turns in the order of their indices, each
    being in the list of players at the time, and the first one has a tagged
    group [g0].  Then every turn succeeds and the map holds, for each player
    in turn, the first group tagged for that player's number or, when there
    is none, [g0]: every player without a tagged group shares the group of
    the first player. *)
Theorem first_turns_share_first_group (w : World)
    (turns : list (list Player * Player)) (g0 : string) :
  player_to_scorereel_map w = [] ->
  (fun t => index t.2) <$> turns = seq 0 (length turns) ->
  Forall (fun t => (index t.2 < length t.1)%nat) turns ->
  match turns with
  | [] => True
  | t :: _ => tagged_name ("player" +:+ pretty (number t.2))
                          (score_reel_groups w) = Some g0
  end ->
  exists w',
    take_turns turns w = (Ok tt, w')
    /\ player_to_scorereel_map w'
       = (fun t => default g0 (tagged_name ("player" +:+ pretty (number t.2))
                                           (score_reel_groups w))) <$> turns
    /\ forall i t,
         turns !! i = Some t ->
         tagged_name ("player" +:+ pretty (number t.2)) (score_reel_groups w)
         = None ->
         player_to_scorereel_map w' !! i = Some g0
         /\ player_to_scorereel_map w' !! 0%nat = Some g0.
Proof.
  intros Hmap Hidx Hin Hfirst.
  destruct (take_first_turns_map turns w 0%nat g0) as (w' & Hrun & Hmap').
  - by rewrite Hmap.
  - by rewrite Hmap.
  - intros i pl p Hi. simpl.
    assert (((fun t : list Player * Player => index t.2) <$> turns) !! i
            = Some (index p)) as Hp by (by rewrite list_lookup_fmap, Hi).
    rewrite Hidx in Hp. apply lookup_seq in Hp as [Hp _]. simpl in Hp.
    split; [done|]. rewrite <- Hp.
    by apply (proj1 (Forall_forall _ _) Hin (pl, p)), list_elem_of_lookup_2 with i.
  - by rewrite Hmap.
  - rewrite Hmap in Hmap'. simpl in Hmap'.
    exists w'. split_and!; try done.
    intros i t Hi Hnone. rewrite Hmap', !list_lookup_fmap, Hi. simpl.
    rewrite Hnone. split; [done|].
    destruct turns as [|t0 turns]; [done|]. simpl. by rewrite Hfirst.
Qed.

(** Three players on the three-reel machine: player 3 shares group a. *)
Lemma first_turns_share_first_group_witness :
  exists w',
    take_turns [([player1], player1);
                ([player1; player2], player2);
                ([player1; player2; player3], player3)] three_reels
    = (Ok tt, w')
    /\ player_to_scorereel_map w' = ["a"; "b"; "a"].
Proof.
  destruct (first_turns_share_first_group three_reels
              [([player1], player1);
               ([player1; player2], player2);
               ([player1; player2; player3], player3)] "a")
    as (w' & Hrun & Hmap & _).
  - reflexivity.
  - reflexivity.
  - apply (bool_decide_unpack _). by vm_compute.
  - by vm_compute.
  - exists w'. split; [exact Hrun|]. rewrite Hmap. by vm_compute.
Defined.

(** ** Score changes in a row *)

Lemma score_change_skips w value change :
  change = 0 \/ active_scorereelgroup w = None ->
  score_change value change w = (Ok tt, w).
Proof.
  intros [-> | Hnone]; run_handler.
  - by destruct (active_scorereelgroup w).
  - by rewrite Hnone.
Qed.

Lemma score_change_records w g value change :
  active_scorereelgroup w = Some g -> change ≠ 0 ->
  score_change value change w
  = (Ok tt, set_calls (calls w ++ [AddValue g change value]) w).
Proof.
  intros Ha Hc. run_handler. rewrite Ha. by destruct (decide (change ≠ 0)).
Qed.

(** X13. Score changes delivered one after the other: with an active group
    [g], every change other than 0 becomes one [add_value(change, target)]
    call on [g], in the order of delivery, and the changes of 0 are skipped;
    with no active group nothing is called.  Nothing but the record of calls
    changes. *)
Theorem score_changes_add_in_order (w : World) (cs : list (Z * Z)) :
  score_changes cs w
  = (Ok tt,
     set_calls
       (calls w
        ++ match active_scorereelgroup w with
           | Some g => (fun c => AddValue g c.2 c.1)
                         <$> filter (fun c => c.2 ≠ 0) cs
           | None => []
           end) w).
Proof.
  revert w. induction cs as [|[value change] cs IH]; intros w.
  - simpl. unfold ret. destruct (active_scorereelgroup w);
      rewrite ?filter_nil; simpl; rewrite app_nil_r; by destruct w.
  - change (score_changes ((value, change) :: cs) w)
      with (bind (score_change value change) (fun _ => score_changes cs) w).
    destruct (active_scorereelgroup w) as [g|] eqn:Ha.
    + destruct (decide (change = 0)) as [->|Hc].
      * erewrite bind_ok;
          [|apply score_change_skips; by left].
        rewrite IH, Ha. by rewrite filter_cons_False by (simpl; auto).
      * erewrite bind_ok; [|by apply score_change_records].
        rewrite IH. simpl. rewrite Ha.
        rewrite filter_cons_True by done. simpl.
        by rewrite <- app_assoc.
    + erewrite bind_ok; [|apply score_change_skips; by right].
      by rewrite IH, Ha.
Qed.

(** ** References to score reel groups *)

Lemma binding_step_configured w r w1 :
  references_configured w ->
  binding_step w w = (r, w1) ->
  Forall (fun g => g ∈ name <$> score_reel_groups w)
         (player_to_scorereel_map w1).
Proof.
  intros [Hmap _]. unfold binding_step. destruct (decide _).
  - run_handler. destruct (items_tagged _ _) as [|reel_group rest] eqn:Htag.
    + destruct (player_to_scorereel_map w !! 0%nat) as [first|] eqn:H0;
        intros [= <- <-]; [|done]. simpl.
      apply Forall_app. split; [done|]. apply Forall_singleton.
      apply (proj1 (Forall_forall _ _) Hmap). by eapply list_elem_of_lookup_2.
    + intros [= <- <-]. simpl. apply Forall_app. split; [done|].
      apply Forall_singleton, list_elem_of_fmap. exists reel_group.
      split; [done|].
      assert (reel_group ∈ reel_group :: rest) as Hin by left.
      rewrite <- Htag in Hin. by apply list_elem_of_filter in Hin as [_ ?].
  - unfold ret. by intros [= <- <-].
Qed.

(** What the turn-started handler can do on a state without dangling
    references. *)
Lemma rotate_player_cases w :
  references_configured w ->
  exists r w',
    rotate_player w = (r, w')
    /\ (r = Ok tt \/ r = Raise IndexError)
    /\ references_configured w'.
Proof.
  intros Hrefs. pose proof Hrefs as [Hmap Hact].
  unfold rotate_player.
  rewrite (bind_ok get _ w w w) by done. fold (binding_step w).
  destruct (binding_step w w) as [[[]|e] w1] eqn:Hbind.
  - pose proof (binding_step_frame _ _ _ Hbind) as Hw1.
    pose proof (binding_step_configured _ _ _ Hrefs Hbind) as Hmap1.
    assert (player w1 = player w) as Hp by (by rewrite Hw1).
    destruct (player_to_scorereel_map w1 !! index (player w)) as [g|] eqn:Hidx.
    + assert (g ∈ name <$> score_reel_groups w) as Hg.
      { apply (proj1 (Forall_forall _ _) Hmap1). by eapply list_elem_of_lookup_2. }
      destruct (find_group_configured g _ Hg) as [grp Hgrp].
      pose proof (rotate_player_run w w1 g grp Hbind Hidx Hgrp) as Hrun.
      unfold rotate_player in Hrun.
      rewrite (bind_ok get _ w w w) in Hrun by done.
      fold (binding_step w) in Hrun.
      eexists _, _. split; [exact Hrun|]. split; [by left|].
      split; simpl.
      * by rewrite lit_only_names.
      * intros a [= <-]. by rewrite lit_only_names.
    + exists (Raise IndexError), w1. split_and!.
      * erewrite bind_ok; [|exact Hbind].
        rewrite (bind_ok get _ w1 w1 w1) by done.
        apply bind_raises, list_index_raises. by rewrite Hp.
      * by right.
      * rewrite Hw1. split; simpl; done.
  - pose proof (binding_step_raises _ _ _ Hbind) as [-> ->].
    exists (Raise IndexError), w. split_and!; [by apply bind_raises|by right|done].
Qed.

Lemma for_each_invariant {A} (I : World -> Prop) (xs : list A)
    (body : A -> M unit) :
  (forall x w, I w -> I (exec (body x) w)) ->
  forall w, I w -> I (exec (for_each xs body) w).
Proof.
  intros Hb. induction xs as [|x xs IH]; intros w Hw; [done|].
  specialize (Hb x w Hw). unfold exec in *. simpl. unfold bind.
  destruct (body x w) as [[[]|e] w1]; simpl in *; [by apply IH|done].
Qed.

Lemma references_configured_binding w w' :
  binding_fields w' = binding_fields w ->
  references_configured w -> references_configured w'.
Proof. unfold references_configured. by intros [= -> -> ->]. Qed.

(** X14. No reference ever dangles: if every entry of the map and the active
    group name configured groups, they still do after any event was
    delivered, whichever handlers ran and whether they returned or raised.
    On such a state the turn-started handler raises nothing but
    [IndexError]. *)
Theorem references_stay_configured (w : World) :
  references_configured w ->
  (forall event kw, references_configured (exec (post event kw) w))
  /\ (forall e w', rotate_player w = (Raise e, w') -> e = IndexError).
Proof.
  intros Hrefs. split.
  - intros event kw. unfold post, exec.
    rewrite (bind_ok get _ w w w) by done.
    apply (for_each_invariant references_configured); [|done].
    intros h w0 Hw0. destruct h; simpl.
    + destruct (rotate_player_cases w0 Hw0) as (r & w' & Hrun & _ & Hw').
      unfold exec. by rewrite Hrun.
    + destruct (kw_value kw) as [value|]; [|done].
      destruct (kw_change kw) as [change|]; [|done].
      apply (references_configured_binding w0); [|done].
      apply (keeps_binding_score_change value change).
    + destruct (kw_queue kw) as [q|]; [|done].
      apply (references_configured_binding w0); [|done].
      apply (keeps_binding_game_starting q).
    + apply (references_configured_binding w0); [|done].
      apply (keeps_binding_reset_next_group _).
  - intros e w' Hrun.
    destruct (rotate_player_cases w Hrefs) as (r & w1 & Hrun1 & [-> | ->] & _);
      congruence.
Qed.

Lemma references_stay_configured_witness :
  references_configured
    (exec (post "player_turn_started"
                {| kw_value := None; kw_change := None; kw_queue := None |})
          three_reels).
Proof.
  apply references_stay_configured. split.
  - apply Forall_nil_2.
  - intros a Ha. discriminate Ha.
Defined.

(** ** A cycle with arbitrary confirmation values *)

Lemma cycle_run_values (payload : string -> option Z) (q : nat) :
  forall (pending : list string) (g : string) (w : World),
    queue w = Some q ->
    reset_queue w = pending ->
    handlers_for (valid_event g) (registered_handlers w) = [H_reset_next_group] ->
    Forall (fun x => handlers_for (valid_event x) (registered_handlers w) = [])
           pending ->
    NoDup pending ->
    exists w',
      confirm_all (confirmations payload (g :: pending)) w = (Ok tt, w')
      /\ calls w' = calls w
                     ++ zip_with SetValue pending
                                 (reported payload <$> (g :: pending))
                     ++ [QueueClear q]
      /\ queue w' = None /\ reset_queue w' = [].
Proof.
  induction pending as [|g' pending IH]; intros g w Hq Hr Hg Hp Hnd.
  - exists (after_last q w). split_and!; try done.
    change (confirm_all (confirmations payload [g]) w)
      with (bind (confirm g (payload g)) (fun _ => ret tt) w).
    erewrite bind_ok; [done|].
    rewrite (confirm_observed _ _ _ Hg). by apply reset_next_group_last.
  - apply Forall_cons in Hp as [Hg' Hp]. apply NoDup_cons in Hnd as [Hnin Hnd].
    set (w1 := after_step g' pending (reported payload g) w).
    destruct (IH g' w1) as (w' & Hrun & Hc & Hqu & Hrq); try done.
    + simpl. rewrite handlers_for_app, Hg'. apply handlers_for_valid_same.
    + simpl. apply Forall_forall. intros x Hx.
      rewrite handlers_for_app, (proj1 (Forall_forall _ _) Hp x Hx).
      apply handlers_for_valid_other. by intros ->.
    + exists w'. split_and!; try done.
      * change (confirm_all (confirmations payload (g :: g' :: pending)) w)
          with (bind (confirm g (payload g))
                     (fun _ => confirm_all (confirmations payload (g' :: pending)))
                     w).
        erewrite bind_ok; [exact Hrun|].
        rewrite (confirm_observed _ _ _ Hg). by apply reset_next_group_step.
      * rewrite Hc. simpl. by rewrite <- app_assoc.
Qed.

(** X15. A whole reset cycle in which the groups report arbitrary values:
    every group is still commanded exactly once, in ascending order of name,
    and the token is cleared once at the end, but only the first group is
    commanded to 0; every other group is commanded to the value that the
    group before it reported (0 when the confirmation carries none). *)
Theorem reset_cycle_relays_values (w : World) (q : nat)
    (payload : string -> option Z) :
  NoDup (name <$> score_reel_groups w) ->
  no_valid_observers w ->
  exists w',
    reset_cycle q payload w = (Ok tt, w')
    /\ calls w' = calls w ++ QueueWait q
                             :: relayed_commands payload (reset_order w)
                   ++ [QueueClear q]
    /\ queue w' = None /\ reset_queue w' = [].
Proof.
  intros Hnd Hidle.
  assert (NoDup (reset_order w)) as Hnd'
    by (by rewrite reset_order_Permutation).
  pose proof (fun x => reset_order_unobserved w x Hidle) as Hun.
  assert (reset_queue (cycle_entry q w) = reset_order w) as Hentry by done.
  unfold reset_cycle. rewrite (bind_ok get _ w w w) by done.
  destruct (reset_order w) as [|g pending] eqn:Horder.
  - exists (after_last q (cycle_entry q w)). split_and!; try done.
    + erewrite bind_ok; [done|].
      rewrite game_starting_entry. by apply reset_next_group_last.
    + simpl. by rewrite <- app_assoc.
  - apply NoDup_cons in Hnd' as [Hnin Hnd'].
    set (w1 := after_step g pending 0 (cycle_entry q w)).
    destruct (cycle_run_values payload q pending g w1)
      as (w' & Hrun & Hc & Hqu & Hrq); try done.
    + simpl. rewrite handlers_for_app, Hun by left.
      apply handlers_for_valid_same.
    + simpl. apply Forall_forall. intros x Hx.
      rewrite handlers_for_app, Hun by (by right).
      apply handlers_for_valid_other. by intros ->.
    + exists w'. split_and!; try done.
      * erewrite bind_ok; [exact Hrun|].
        rewrite game_starting_entry. by apply reset_next_group_step.
      * rewrite Hc. simpl. by rewrite <- !app_assoc.
Qed.

(** Group a reports 120 and group b reports 35. *)
Lemma reset_cycle_relays_values_witness :
  exists w',
    reset_cycle 7 (fun g => if decide (g = "a") then Some 120
                            else if decide (g = "b") then Some 35 else None)
                three_reels = (Ok tt, w')
    /\ calls w' = [QueueWait 7; SetValue "a" 0; SetValue "b" 120;
                   SetValue "c" 35; QueueClear 7].
Proof.
  destruct (reset_cycle_relays_values three_reels 7
              (fun g => if decide (g = "a") then Some 120
                        else if decide (g = "b") then Some 35 else None))
    as (w' & Hrun & Hcalls & _).
  - apply (bool_decide_unpack _). by vm_compute.
  - repeat constructor.
  - exists w'. split; [exact Hrun|]. rewrite Hcalls. by vm_compute.
Defined.
